(** * eqxvision.experimental: capturing intermediate activations

    A shallow embedding of [src/eqxvision/experimental.py]:
    [AuxData], [_make_intermediate_layer_wrapper], [IntermediateWrapper],
    [intermediate_layer_getter] and [IntermediateLayerGetter].

    Python objects of class [AuxData] live in a store; an [AuxData] reference
    is the address of its object.  A model is a tree of modules; calling a
    module threads the store, because [IntermediateWrapper.__call__] writes
    the cell it closes over. *)

From stdpp Require Import base option list sorting.
From Stdlib Require Import ZArith Lia.

Set Default Proof Using "Type".

(** ** Values, modules, programs *)

(** A location in a model: the positions to descend through, from the root. *)
Abbreviation path := (list nat) (only parsing).

(** The outcome of a call: an exception of [E] or the returned value. *)
Abbreviation result X E := (E + X)%type (only parsing).

(** The store of [AuxData] objects: entry [aux] is the [data] attribute of
    the object at address [aux]; Python's [None] is [None]. *)
Abbreviation store X := (list (option X)) (only parsing).

Section Embedding.

(** [X] are the values layers consume and produce, [K] the randomness keys
    ([key=None] is [None : option K]), [E] the exceptions a call may raise. *)
Context {X K E : Type}.

(** How [equinox.nn.Sequential] derives the key of its [idx]-th layer out of
    [n] from its own key; the library is not part of the sources, and the
    properties below hold whatever it does here. *)
Variable layer_key : option K → nat → nat → option K.

(** What Python raises when a module's code reaches for a sub-module it does
    not have. *)
Variable AttributeError : E.

(** Modelled from the spec: the models come from outside this file, and
    "each model sub-component is called with a signature of (input value,
    optional named randomness-source parameter) → single output value".
    The body of a user-defined module's [__call__] is reduced to what matters
    here: it calls its sub-modules, any number of times, each time with an
    input and a key it chooses from what it has seen so far, and it may
    handle what a sub-module raises ([resume] receives the outcome). *)
Inductive prog : Type :=
| Return (out : X)
| Raise (e : E)
| Invoke (field : nat) (x : X) (key : option K) (resume : result X E → prog).

(** A model.  [Layer] is a module without sub-modules, [Sequential] is
    [equinox.nn.Sequential], [Composite] any other [eqx.Module] with
    sub-modules, and [IntermediateWrapper aux layer] an instance of the class
    [_make_intermediate_layer_wrapper] returns, whose closure holds the
    [AuxData] object at address [aux] and whose one field is [layer]. *)
#[local] Unset Elimination Schemes.
Inductive module : Type :=
| Layer (apply : X → option K → result X E)
| Sequential (layers : list module)
| Composite (fields : list module) (forward : X → option K → prog)
| IntermediateWrapper (aux : nat) (layer : module).
#[local] Set Elimination Schemes.

(** ** AuxData *)

(** [AuxData()]: a new object, distinct from all existing ones, with
    [self.data = None]. *)
Definition AuxData_init (s : store X) : nat * store X := (length s, s ++ [None]).

(** [aux.update(x)]: [self.data = x]. *)
Definition AuxData_update (aux : nat) (x : X) (s : store X) : store X :=
  <[aux := Some x]> s.

(** [aux.data]. *)
Definition AuxData_data (s : store X) (aux : nat) : option X :=
  match s !! aux with Some d => d | None => None end.

(** ** Calling a module *)

Section Call.

(** The state a call threads and what [aux.update(out)] does to it.  The
    program runs with [St := store X] and [update := AuxData_update]; the same
    definition with another state records which updates a call performs. *)
Context {St : Type} (update : nat → X → St → St).

(** What a module is to its caller. *)
Local Abbreviation callable := (X → option K → St → result X E * St).

(** Modelled from the spec: the call of [equinox.nn.Sequential], which is
    not part of the sources, "a simple ordered pipeline of sub-components".
    Its loop over the layers, from position [idx] on: [x = layer(x, key=...)]
    for each layer in turn; an exception ends it. *)
Fixpoint call_layers (key : option K) (n idx : nat) (layers : list callable)
    (x : X) (s : St) : result X E * St :=
  match layers with
  | [] => (inr x, s)
  | layer :: layers' =>
      match layer x (layer_key key n idx) s with
      | (inr out, s') => call_layers key n (S idx) layers' out s'
      | (inl e, s') => (inl e, s')
      end
  end.

(** Running a [Composite]'s body against its sub-modules. *)
Fixpoint run (fields : list callable) (p : prog) (s : St) : result X E * St :=
  match p with
  | Return out => (inr out, s)
  | Raise e => (inl e, s)
  | Invoke field x key resume =>
      match fields !! field with
      | Some f => let '(r, s') := f x key s in run fields (resume r) s'
      | None => run fields (resume (inl AttributeError)) s
      end
  end.

(** [module(x, key=key)]. *)
Fixpoint call (m : module) : callable :=
  match m with
  | Layer apply => λ x key s, (apply x key, s)
  | Sequential layers => λ x key s,
      call_layers key (length layers) 0 (call <$> layers) x s
  | Composite fields forward => λ x key s,
      run (call <$> fields) (forward x key) s
  | IntermediateWrapper aux layer => λ x key s,
      (* out = self.layer(x, key=key); aux.update(out); return out *)
      match call layer x key s with
      | (inr out, s') => (inr out, update aux out s')
      | (inl e, s') => (inl e, s')
      end
  end.

End Call.

(** The forward pass of the program. *)
Definition forward_pass : module → X → option K → store X → result X E * store X :=
  call AuxData_update.

(** What reaches the layer at position [i] of a pipeline called on [x]: the
    outcome of the layers before it. *)
Definition reaches (layers : list module) (key : option K) (i : nat) (x : X)
    : result X E :=
  (call_layers key (length layers) 0 (call AuxData_update <$> take i layers) x []).1.

(** The same call, with the state a log: the pairs (cell, value) of the
    [aux.update(out)] it performs, oldest first. *)
Definition record (aux : nat) (out : X) (log : list (nat * X)) : list (nat * X) :=
  log ++ [(aux, out)].

(** The updates a call of [m] on [x] and [key] performs: one pair (cell,
    value returned) for each time a wrapper has run its layer to the end. *)
Definition updates (m : module) (x : X) (key : option K) : list (nat * X) :=
  (call record m x key []).2.

(** A store after the updates of a log, oldest first. *)
Definition replay (s : store X) (log : list (nat * X)) : store X :=
  foldl (λ s' u, AuxData_update u.1 u.2 s') s log.

(** The cells the wrappers of a model close over, in tree order. *)
Fixpoint cells (m : module) : list nat :=
  match m with
  | Layer _ => []
  | Sequential layers => concat (cells <$> layers)
  | Composite fields _ => concat (cells <$> fields)
  | IntermediateWrapper aux layer => aux :: cells layer
  end.

(** A model without its wrappers whose cell satisfies [p]. *)
Fixpoint unwrap (p : nat → bool) (m : module) : module :=
  match m with
  | Layer apply => Layer apply
  | Sequential layers => Sequential (unwrap p <$> layers)
  | Composite fields forward => Composite (unwrap p <$> fields) forward
  | IntermediateWrapper aux layer =>
      if p aux then unwrap p layer else IntermediateWrapper aux (unwrap p layer)
  end.

(** ** Locations in a model *)

(** The sub-modules of a module, as a pytree node's children. *)
Definition children (m : module) : list module :=
  match m with
  | Layer _ => []
  | Sequential layers => layers
  | Composite fields _ => fields
  | IntermediateWrapper _ layer => [layer]
  end.

(** The same node around other children. *)
Definition with_children (m : module) (cs : list module) : module :=
  match m, cs with
  | Sequential _, _ => Sequential cs
  | Composite _ forward, _ => Composite cs forward
  | IntermediateWrapper aux _, [layer] => IntermediateWrapper aux layer
  | _, _ => m
  end.

(** The node at a location, if the location exists. *)
Fixpoint subtree (m : module) (loc : path) : option module :=
  match loc with
  | [] => Some m
  | i :: loc' => children m !! i ≫= λ c, subtree c loc'
  end.

(** A copy of [m] with the node at [loc] replaced by [r]. *)
Fixpoint replace_at (loc : path) (r : module) (m : module) : option module :=
  match loc with
  | [] => Some r
  | i :: loc' =>
      c ← children m !! i;
      c' ← replace_at loc' r c;
      Some (with_children m (<[i := c']> (children m)))
  end.

(** One location lies on the way to the other, or they are the same: the
    two agree for as long as both last. *)
Fixpoint overlap (p q : path) : bool :=
  match p, q with
  | i :: p', k :: q' => bool_decide (i = k) && overlap p' q'
  | _, _ => true
  end.

(** No two of the locations overlap. *)
Fixpoint separate (locs : list path) : bool :=
  match locs with
  | [] => true
  | p :: locs' => forallb (λ q, negb (overlap p q)) locs' && separate locs'
  end.

(** A copy of [pytree] with each location replaced by the replacement of
    the same rank; as many replacements as locations. *)
Fixpoint replace_all (locs : list path) (replace : list module) (pytree : module)
    : option module :=
  match locs, replace with
  | [], [] => Some pytree
  | loc :: locs', r :: replace' =>
      replace_at loc r pytree ≫= replace_all locs' replace'
  | _, _ => None
  end.

(** Modelled from the spec: of the pairs (location, replacement) handed to
    [equinox.tree_at], those that count, whose location is not listed again
    further on. *)
Fixpoint last_listings {A : Type} (pairs : list (path * A)) : list (path * A) :=
  match pairs with
  | [] => []
  | lr :: pairs' =>
      if bool_decide (lr.1 ∈ pairs'.*1) then last_listings pairs'
      else lr :: last_listings pairs'
  end.

(** Modelled from the spec: [equinox.tree_at] is an external collaborator,
    "given a model, a selector (reused), and a same-length ordered list of
    replacement sub-components, produce a new model with those locations
    substituted, preserving everything else unchanged", "all at-once".  The
    selector is the list of locations it names.  Where the spec is silent
    the model follows the library, which keeps one replacement for each node
    the selector names: a location listed more than once receives the
    replacement of its last listing, and the earlier ones are dropped.  A
    location inside another listed location is never reached, the node
    above it being replaced as a whole, and the library refuses that; it
    refuses as well a list of replacements of another length. *)
Definition tree_at (where_ : list path) (pytree : module) (replace : list module)
    : option module :=
  let kept := last_listings (zip where_ replace) in
  if bool_decide (length where_ = length replace) && separate kept.*1
  then replace_all kept.*1 kept.*2 pytree
  else None.

(** ** intermediate_layer_getter *)

(** What may go wrong while building the instrumented model. *)
Inductive build_error : Type :=
| ValueError      (* unpacking [zip()] of nothing into two names *)
| IndexError      (* [wrappers[updated_count]] past the end *)
| SelectorError   (* [get_target_layers(model)] reaches for a node that is not there *)
| TreeAtError.    (* [eqx.tree_at] refuses *)

(** The outcome of a step of the construction. *)
Definition built (A : Type) : Type := build_error + A.

#[local] Instance built_ret : MRet built := λ A a, inr a.
#[local] Instance built_bind : MBind built := λ A B f c,
  match c with inl e => inl e | inr a => f a end.
#[local] Instance built_fmap : FMap built := λ A B f c,
  match c with inl e => inl e | inr a => inr (f a) end.

(** What a selector returns: positions in a pipeline, or nodes of the model,
    named by their locations. *)
Inductive selection : Type :=
| Indices (idxs : list Z)
| Nodes (locs : list path).

(** [len(target_layers)]. *)
Definition len (target_layers : selection) : nat :=
  match target_layers with
  | Indices idxs => length idxs
  | Nodes locs => length locs
  end.

(** [idx in target_layers]: a position is never equal to a node. *)
Definition contains (idx : nat) (target_layers : selection) : bool :=
  match target_layers with
  | Indices idxs => bool_decide (Z.of_nat idx ∈ idxs)
  | Nodes _ => false
  end.

(** Evaluating [get_target_layers(model)]: the nodes it returns must be
    there to be returned. *)
Definition selected_nodes (model : module) (target_layers : selection)
    : built (list module) :=
  match target_layers with
  | Indices _ => inr []
  | Nodes locs =>
      match mapM (subtree model) locs with
      | Some nodes => inr nodes
      | None => inl SelectorError
      end
  end.

(** [aux = AuxData()] and the class [IntermediateWrapper] closed over it. *)
Definition _make_intermediate_layer_wrapper (s : store X)
    : (nat * (module → module)) * store X :=
  let '(aux, s') := AuxData_init s in ((aux, IntermediateWrapper aux), s').

(** [[_make_intermediate_layer_wrapper() for _ in range(n)]]. *)
Fixpoint make_wrappers (n : nat) (s : store X)
    : list (nat * (module → module)) * store X :=
  match n with
  | 0 => ([], s)
  | S n' =>
      let '(made, s1) := _make_intermediate_layer_wrapper s in
      let '(pairs, s2) := make_wrappers n' s1 in
      (made :: pairs, s2)
  end.

(** [auxs, wrappers = zip( *pairs )]: of no pairs, [zip()] yields nothing and
    the unpacking into two names raises. *)
Definition unpack (pairs : list (nat * (module → module)))
    : built (list nat * list (module → module)) :=
  match pairs with
  | [] => inl ValueError
  | _ :: _ => inr (pairs.*1, pairs.*2)
  end.

(** The loop of the [nn.Sequential] branch, from position [idx] on. *)
Fixpoint wrap_layers (target_layers : selection) (wrappers : list (module → module))
    (idx updated_count : nat) (layers : list module) : built (list module) :=
  match layers with
  | [] => inr []
  | m :: layers' =>
      if contains idx target_layers then
        match wrappers !! updated_count with
        | Some wrapper =>
            cons (wrapper m) <$>
              wrap_layers target_layers wrappers (S idx) (S updated_count) layers'
        | None => inl IndexError
        end
      else
        cons m <$> wrap_layers target_layers wrappers (S idx) updated_count layers'
  end.

(** The positions that loop wraps among the [n] positions from [idx] on, in
    the order it meets them. *)
Definition hits (target_layers : selection) (idx n : nat) : list nat :=
  filter (λ i, contains i target_layers = true) (seq idx n).

(** [if isinstance(model, nn.Sequential): ...] *)
Definition sequential_branch (layers : list module) (target_layers : selection)
    (wrappers : list (module → module)) : built module :=
  Sequential <$> wrap_layers target_layers wrappers 0 0 layers.

(** [else: model = eqx.tree_at(where=get_target_layers, pytree=model,
    replace=[wrapper(target_layer) for (wrapper, target_layer) in
    zip(wrappers, target_layers)])]. *)
Definition tree_at_branch (model : module) (target_layers : selection)
    (nodes : list module) (wrappers : list (module → module)) : built module :=
  match target_layers with
  | Indices _ => inl TreeAtError
  | Nodes locs =>
      match tree_at locs model (zip_with (λ wrapper target_layer, wrapper target_layer)
                                  wrappers nodes) with
      | Some model' => inr model'
      | None => inl TreeAtError
      end
  end.

(** [isinstance(model, nn.Sequential)]. *)
Definition is_Sequential (model : module) : bool :=
  match model with
  | Sequential _ => true
  | _ => false
  end.

(** The branch taken according to the kind of model. *)
Definition by_kind (model : module) (target_layers : selection)
    (nodes : list module) (wrappers : list (module → module)) : built module :=
  match model with
  | Sequential layers => sequential_branch layers target_layers wrappers
  | _ => tree_at_branch model target_layers nodes wrappers
  end.

(** An [IntermediateLayerGetter]: its field [model], and the [auxs] its
    class closes over. *)
Record IntermediateLayerGetter : Type := Getter {
  model : module;
  auxs : list nat;
}.

(** [intermediate_layer_getter] with the choice of branch left open. *)
Definition getter_with
    (branch : module → selection → list module → list (module → module) → built module)
    (model : module) (get_target_layers : module → selection) (s : store X)
    : built (IntermediateLayerGetter * store X) :=
  let target_layers := get_target_layers model in
  nodes ← selected_nodes model target_layers;
  let '(pairs, s') := make_wrappers (len target_layers) s in
  '(auxs, wrappers) ← unpack pairs;
  model' ← branch model target_layers nodes wrappers;
  mret (Getter model' auxs, s').

(** [intermediate_layer_getter(model, get_target_layers)], from a store [s]:
    the getter and the store with the new cells, or what it raises. *)
Definition intermediate_layer_getter
    : module → (module → selection) → store X → built (IntermediateLayerGetter * store X) :=
  getter_with by_kind.

(** The same with the [else] branch taken whatever the model. *)
Definition general_getter
    : module → (module → selection) → store X → built (IntermediateLayerGetter * store X) :=
  getter_with tree_at_branch.

(** [IntermediateLayerGetter.__call__]: [out = self.model(x, key=key);
    return out, [aux.data for aux in auxs]]. *)
Definition getter_call (g : IntermediateLayerGetter) (x : X) (key : option K)
    (s : store X) : (E + X * list (option X)) * store X :=
  match forward_pass (model g) x key s with
  | (inr out, s') => (inr (out, AuxData_data s' <$> auxs g), s')
  | (inl e, s') => (inl e, s')
  end.

(** The store after a series of calls of the getter, one after the other,
    each given as its input and key. *)
Definition after_calls (g : IntermediateLayerGetter) (calls : list (X * option K))
    (s : store X) : store X :=
  foldl (λ s' c, (getter_call g c.1 c.2 s').2) s calls.

(** The first component of what the getter returns, or what it raises. *)
Definition final_output (r : E + X * list (option X)) : result X E :=
  match r with
  | inr (out, _) => inr out
  | inl e => inl e
  end.

(** The capture list of what the getter returns. *)
Definition captures (r : E + X * list (option X)) : option (list (option X)) :=
  match r with
  | inr (_, caps) => Some caps
  | inl _ => None
  end.

End Embedding.

Arguments module : clear implicits.
Arguments prog : clear implicits.
Arguments IntermediateLayerGetter : clear implicits.

(** ** Concrete models

    Values are integers, keys and exceptions natural numbers; a pipeline
    hands its [idx]-th layer its own key shifted by [idx]. *)

Module Examples.

Definition keys (key : option nat) (n idx : nat) : option nat :=
  (λ k, k + idx) <$> key.

Definition NoSuchField : nat := 0.

Definition fwd := forward_pass (X:=Z) keys NoSuchField.
Definition ilg := intermediate_layer_getter (X:=Z) (K:=nat) (E:=nat).
Definition ilg_call := getter_call (X:=Z) keys NoSuchField.

Definition L0 : module Z nat nat := Layer (λ x _, inr (x + 1)%Z).
Definition L1 : module Z nat nat := Layer (λ x _, inr (x * 2)%Z).
Definition L2 : module Z nat nat := Layer (λ x _, inr (x + 10)%Z).

(** Scenario A: a three-stage pipeline. *)
Definition pipeline : module Z nat nat := Sequential [L0; L1; L2].

(** A layer that refuses negative inputs with exception 7. *)
Definition positive : module Z nat nat :=
  Layer (λ x _, if (x <? 0)%Z then inl 7 else inr x).

Definition guarded : module Z nat nat := Sequential [L0; positive; L2].

(** Scenario C: a nested model; its body calls the deep layers first. *)
Definition nested : module Z nat nat :=
  Composite [L0; Sequential [L1; L2]]
    (λ x key, Invoke 1 x key (λ r,
       match r with
       | inl e => Raise e
       | inr y => Invoke 0 y key (λ r',
           match r' with inl e => Raise e | inr z => Return z end)
       end)).

(** Scenario D: one sub-module called twice in a forward pass. *)
Definition twice : module Z nat nat :=
  Composite [L1]
    (λ x key, Invoke 0 x key (λ r,
       match r with
       | inl e => Raise e
       | inr y => Invoke 0 (y + 1)%Z key (λ r',
           match r' with inl e => Raise e | inr z => Return z end)
       end)).

(** A model that skips its sub-module on negative inputs. *)
Definition branching : module Z nat nat :=
  Composite [L0]
    (λ x key, if (x <? 0)%Z then Return x
              else Invoke 0 x key (λ r,
                match r with inl e => Raise e | inr y => Return y end)).

(** What [intermediate_layer_getter] returns for Scenario A with positions
    0 and 2, for the same positions returned as 2, 0, and for 0 twice. *)
Definition pipeline_02 : IntermediateLayerGetter Z nat nat :=
  Getter (Sequential [IntermediateWrapper 0 L0; L1; IntermediateWrapper 1 L2]) [0; 1].

Definition pipeline_00 : IntermediateLayerGetter Z nat nat :=
  Getter (Sequential [IntermediateWrapper 0 L0; L1; L2]) [0; 1].

(** The general branch on Scenario A with the locations of positions 2, 0. *)
Definition pipeline_20_general : IntermediateLayerGetter Z nat nat :=
  Getter (Sequential [IntermediateWrapper 1 L0; L1; IntermediateWrapper 0 L2]) [0; 1].

(** Scenario C with the shallow layer selected first, though the body calls
    the deep one first. *)
Definition nested_shallow_first : IntermediateLayerGetter Z nat nat :=
  Getter (Composite [IntermediateWrapper 0 L0;
                     Sequential [L1; IntermediateWrapper 1 L2]]
            (λ x key, Invoke 1 x key (λ r,
               match r with
               | inl e => Raise e
               | inr y => Invoke 0 y key (λ r',
                   match r' with inl e => Raise e | inr z => Return z end)
               end))) [0; 1].

(** Scenario C with the shallow layer selected twice: one wrapper, over the
    second cell. *)
Definition nested_0_twice : IntermediateLayerGetter Z nat nat :=
  Getter (Composite [IntermediateWrapper 1 L0; Sequential [L1; L2]]
            (λ x key, Invoke 1 x key (λ r,
               match r with
               | inl e => Raise e
               | inr y => Invoke 0 y key (λ r',
                   match r' with inl e => Raise e | inr z => Return z end)
               end))) [0; 1].

Definition guarded_1 : IntermediateLayerGetter Z nat nat :=
  Getter (Sequential [L0; IntermediateWrapper 0 positive; L2]) [0].

Definition twice_0 : IntermediateLayerGetter Z nat nat :=
  Getter (Composite [IntermediateWrapper 0 L1]
            (λ x key, Invoke 0 x key (λ r,
               match r with
               | inl e => Raise e
               | inr y => Invoke 0 (y + 1)%Z key (λ r',
                   match r' with inl e => Raise e | inr z => Return z end)
               end))) [0].

Definition branching_0 : IntermediateLayerGetter Z nat nat :=
  Getter (Composite [IntermediateWrapper 0 L0]
            (λ x key, if (x <? 0)%Z then Return x
                      else Invoke 0 x key (λ r,
                        match r with inl e => Raise e | inr y => Return y end))) [0].

End Examples.

(** * Properties *)

Section Properties.

Context {X K E : Type}.
Variable layer_key : option K → nat → nat → option K.
Variable AttributeError : E.

Local Abbreviation module := (module X K E).
Local Abbreviation prog := (prog X K E).
Local Abbreviation call := (call layer_key AttributeError).
Local Abbreviation forward_pass := (forward_pass layer_key AttributeError).
Local Abbreviation updates := (updates layer_key AttributeError).
Local Abbreviation getter_call := (getter_call layer_key AttributeError).
Local Abbreviation reaches := (reaches layer_key AttributeError).
Local Abbreviation after_calls := (after_calls layer_key AttributeError).

Lemma forward_pass_eq (m : module) :
  forward_pass m = call AuxData_update m.
Proof. reflexivity. Qed.

Lemma updates_eq (m : module) x key :
  updates m x key = (call record m x key []).2.
Proof. reflexivity. Qed.

Lemma getter_call_eq g x key (s : store X) :
  getter_call g x key s =
    match forward_pass (model g) x key s with
    | (inr out, s') => (inr (out, AuxData_data s' <$> auxs g), s')
    | (inl e, s') => (inl e, s')
    end.
Proof. reflexivity. Qed.

(** ** Induction on models *)

Section module_ind.

Variable P : module → Prop.
Hypothesis P_Layer : ∀ apply, P (Layer apply).
Hypothesis P_Sequential : ∀ layers, Forall P layers → P (Sequential layers).
Hypothesis P_Composite : ∀ fields forward, Forall P fields → P (Composite fields forward).
Hypothesis P_IntermediateWrapper : ∀ aux layer, P layer → P (IntermediateWrapper aux layer).

Fixpoint module_ind (m : module) : P m :=
  match m with
  | Layer apply => P_Layer apply
  | Sequential layers =>
      P_Sequential layers
        ((fix all (ms : list module) : Forall P ms :=
            match ms with
            | [] => Forall_nil_2 P
            | m' :: ms' => Forall_cons_2 P m' ms' (module_ind m') (all ms')
            end) layers)
  | Composite fields forward =>
      P_Composite fields forward
        ((fix all (ms : list module) : Forall P ms :=
            match ms with
            | [] => Forall_nil_2 P
            | m' :: ms' => Forall_cons_2 P m' ms' (module_ind m') (all ms')
            end) fields)
  | IntermediateWrapper aux layer =>
      P_IntermediateWrapper aux layer (module_ind layer)
  end.

End module_ind.

(** ** Two calls in step

    Two callables, over two kinds of state, are in step for a relation [R]
    between the states when from related states they end with the same
    outcome and in related states. *)

Section InStep.

Context {St1 St2 : Type} (R : St1 → St2 → Prop).

Definition in_step (f : X → option K → St1 → result X E * St1)
    (g : X → option K → St2 → result X E * St2) : Prop :=
  ∀ x key s1 s2, R s1 s2 →
    (f x key s1).1 = (g x key s2).1 ∧ R (f x key s1).2 (g x key s2).2.

Lemma call_layers_in_step key n fs gs :
  Forall2 in_step fs gs →
  ∀ idx, in_step (λ x _ s, call_layers layer_key key n idx fs x s)
                 (λ x _ s, call_layers layer_key key n idx gs x s).
Proof.
  induction 1 as [|f g fs gs Hfg _ IH]; intros idx x _ s1 s2 HR; simpl; [done|].
  destruct (Hfg x (layer_key key n idx) s1 s2 HR) as [Ho Hs].
  destruct (f x _ s1) as [[e|out] s1'], (g x _ s2) as [[e'|out'] s2'];
    simpl in *; simplify_eq; [done|].
  by apply (IH (S idx) out' key).
Qed.

Lemma run_in_step fs gs p :
  Forall2 in_step fs gs →
  ∀ s1 s2, R s1 s2 →
    (run AttributeError fs p s1).1 = (run AttributeError gs p s2).1 ∧
    R (run AttributeError fs p s1).2 (run AttributeError gs p s2).2.
Proof.
  intros Hfg. induction p as [out|e|field x key resume IH]; intros s1 s2 HR; simpl; [done..|].
  pose proof (Forall2_length _ _ _ Hfg) as Hlen.
  destruct (fs !! field) as [f|] eqn:Hf, (gs !! field) as [g|] eqn:Hg.
  - destruct (Forall2_lookup_lr _ _ _ _ _ _ Hfg Hf Hg x key s1 s2 HR) as [Ho Hs].
    destruct (f x key s1) as [r s1'], (g x key s2) as [r' s2']; simpl in *; subst.
    by apply IH.
  - apply lookup_lt_Some in Hf. apply lookup_ge_None in Hg. lia.
  - apply lookup_lt_Some in Hg. apply lookup_ge_None in Hf. lia.
  - by apply IH.
Qed.

(** A model without some of its wrappers is in step with the model itself,
    when the updates of the wrappers that are gone do not matter to [R]. *)
Lemma call_unwrap_in_step (update1 : nat → X → St1 → St1)
    (update2 : nat → X → St2 → St2) (p : nat → bool) :
  (∀ aux out s1 s2, p aux = false → R s1 s2 → R (update1 aux out s1) (update2 aux out s2)) →
  (∀ aux out s1 s2, p aux = true → R s1 s2 → R s1 (update2 aux out s2)) →
  ∀ m, in_step (call update1 (unwrap p m)) (call update2 m).
Proof.
  intros Hkeep Hdrop m.
  induction m as [apply|layers IH|fields forward IH|aux layer IH] using module_ind.
  - by intros x key s1 s2 HR.
  - intros x key s1 s2 HR. simpl. rewrite length_fmap.
    apply (call_layers_in_step key (length layers)); [|exact key|done].
    rewrite <-list_fmap_compose. induction IH; constructor; auto.
  - intros x key s1 s2 HR. simpl. apply run_in_step; [|done].
    rewrite <-list_fmap_compose. induction IH; constructor; auto.
  - intros x key s1 s2 HR. simpl.
    destruct (p aux) eqn:Hp; simpl; destruct (IH x key s1 s2 HR) as [Ho Hs].
    + destruct (call update1 (unwrap p layer) x key s1) as [r1 s1'],
        (call update2 layer x key s2) as [[e|out] s2']; simpl in *; subst; auto.
    + destruct (call update1 (unwrap p layer) x key s1) as [[e1|out1] s1'],
        (call update2 layer x key s2) as [[e|out] s2']; simpl in *; simplify_eq; auto.
Qed.

End InStep.

(** ** Unwrapping *)

Lemma unwrap_id (p : nat → bool) (m : module) :
  Forall (λ aux, p aux = false) (cells m) → unwrap p m = m.
Proof.
  induction m as [apply|layers IH|fields forward IH|aux layer IH] using module_ind;
    simpl; intros Hc.
  - done.
  - f_equal. induction IH as [|m ms Hm _ IHms]; simpl in *; [done|].
    apply Forall_app in Hc as [??]. f_equal; auto.
  - f_equal. induction IH as [|m ms Hm _ IHms]; simpl in *; [done|].
    apply Forall_app in Hc as [??]. f_equal; auto.
  - apply Forall_cons in Hc as [-> ?]. f_equal; auto.
Qed.

Lemma unwrap_none (m : module) : unwrap (λ _, false) m = m.
Proof. apply unwrap_id, Forall_forall. done. Qed.

(** ** What a forward pass returns, and what it writes *)

(** The outcome of a call does not depend on the state it runs in, nor on
    what an update does to the state. *)
Lemma call_outcome {St1 St2 : Type} (update1 : nat → X → St1 → St1)
    (update2 : nat → X → St2 → St2) (m : module) x key s1 s2 :
  (call update1 m x key s1).1 = (call update2 m x key s2).1.
Proof.
  pose proof (call_unwrap_in_step (λ _ _, True) update1 update2 (λ _, false)) as H.
  rewrite <-(unwrap_none m) at 1. by apply H.
Qed.

(** Wrappers do not change the outcome. *)
Lemma call_unwrap_outcome {St1 St2 : Type} (update1 : nat → X → St1 → St1)
    (update2 : nat → X → St2 → St2) (p : nat → bool) (m : module) x key s1 s2 :
  (call update1 (unwrap p m) x key s1).1 = (call update2 m x key s2).1.
Proof. by apply (call_unwrap_in_step (λ _ _, True) update1 update2 p). Qed.

Lemma same_unwrapped_same_outcome (p : nat → bool) (m m' : module) x key
    (s s' : store X) :
  unwrap p m' = unwrap p m →
  (forward_pass m' x key s').1 = (forward_pass m x key s).1.
Proof.
  intros Heq. rewrite !forward_pass_eq.
  rewrite <-(call_unwrap_outcome AuxData_update AuxData_update p m' x key s s').
  rewrite Heq. apply call_unwrap_outcome.
Qed.

(** A forward pass leaves the store it found, with its updates replayed
    on it in order. *)
Lemma forward_pass_replay (m : module) x key (s : store X) :
  (forward_pass m x key s).2 = replay s (updates m x key).
Proof.
  pose proof (call_unwrap_in_step (λ log s', s' = replay s log)
                record AuxData_update (λ _, false)) as H.
  specialize (H ltac:(by intros aux out log s' _ ->; unfold replay, record;
                         rewrite foldl_app) ltac:(done) m).
  rewrite unwrap_none in H. by destruct (H x key [] s eq_refl) as [_ Hs].
Qed.

(** The updates of a call are those of the wrappers of the model. *)
Lemma updates_cells (m : module) x key :
  Forall (λ u, u.1 ∈ cells m) (updates m x key).
Proof.
  set (p := λ aux, bool_decide (aux ∉ cells m)).
  assert (unwrap p m = m) as Hid.
  { apply unwrap_id, Forall_forall. intros aux Hin.
    by apply bool_decide_eq_false; intros ?. }
  destruct (call_unwrap_in_step
    (λ (log : list (nat * X)) (_ : unit), Forall (λ u, u.1 ∈ cells m) log)
    record (λ _ _ u, u) p) with (m := m) (x := x) (key := key)
    (s1 := @nil (nat * X)) (s2 := ()) as [_ H]; [| done | done |].
  - intros aux out log _ Hp%bool_decide_eq_false Hlog. unfold record.
    apply Forall_app; split; [done|]. apply Forall_singleton. simpl.
    by destruct (decide (aux ∈ cells m)).
  - by rewrite Hid in H.
Qed.

(** What a wrapper adds to the updates of its layer: one update of its own
    cell, with what the layer returned, after those of the layer. *)
Lemma updates_wrapper aux (layer : module) x key :
  updates (IntermediateWrapper aux layer) x key =
    match (call record layer x key []).1 with
    | inr out => updates layer x key ++ [(aux, out)]
    | inl _ => updates layer x key
    end.
Proof.
  rewrite !updates_eq. simpl.
  by destruct (call record layer x key []) as [[e|out] log].
Qed.

(** ** The store *)

Lemma length_replay (s : store X) log : length (replay s log) = length s.
Proof.
  revert s. induction log as [|[a o] log IH]; intros s; simpl; [done|].
  unfold replay in *. simpl. rewrite IH. apply length_insert.
Qed.

Lemma replay_app (s : store X) log1 log2 :
  replay s (log1 ++ log2) = replay (replay s log1) log2.
Proof. apply foldl_app. Qed.

Lemma data_update_eq aux x (s : store X) :
  aux < length s → AuxData_data (AuxData_update aux x s) aux = Some x.
Proof.
  intros Hlt. unfold AuxData_data, AuxData_update.
  by rewrite list_lookup_insert_eq.
Qed.

Lemma data_update_ne aux aux' x (s : store X) :
  aux ≠ aux' → AuxData_data (AuxData_update aux x s) aux' = AuxData_data s aux'.
Proof.
  intros Hne. unfold AuxData_data, AuxData_update.
  by rewrite list_lookup_insert_ne.
Qed.

(** A cell no update of the log names keeps what it held. *)
Lemma data_replay_other aux (s : store X) log :
  aux ∉ (log.*1) → AuxData_data (replay s log) aux = AuxData_data s aux.
Proof.
  revert s. induction log as [|[a o] log IH]; intros s Hnot; [done|].
  change (replay s ((a, o) :: log)) with (replay (AuxData_update a o s) log).
  rewrite fmap_cons in Hnot. apply not_elem_of_cons in Hnot as [Hne Hnot].
  rewrite IH by done. by apply data_update_ne.
Qed.

(** A cell holds what the last update that names it wrote. *)
Lemma data_replay_last aux out (s : store X) log1 log2 :
  aux < length s → aux ∉ (log2.*1) →
  AuxData_data (replay s (log1 ++ (aux, out) :: log2)) aux = Some out.
Proof.
  intros Hlt Hnot. rewrite replay_app.
  change (replay (replay s log1) ((aux, out) :: log2))
    with (replay (AuxData_update aux out (replay s log1)) log2).
  rewrite data_replay_other by done. apply data_update_eq.
  by rewrite length_replay.
Qed.

(** A log with exactly one update of a cell splits around it. *)
Lemma only_update_split aux out (log : list (nat * X)) :
  filter (λ u, u.1 = aux) log = [(aux, out)] →
  ∃ log1 log2, log = log1 ++ (aux, out) :: log2 ∧ (aux ∉ log1.*1) ∧ (aux ∉ log2.*1).
Proof.
  induction log as [|[a o] log IH]; [done|].
  rewrite filter_cons. simpl. destruct (decide (a = aux)) as [->|Hne].
  - intros [= -> Hnil]. exists [], log. split_and!; [done|apply not_elem_of_nil|].
    intros ((a' & o') & ? & Hin)%list_elem_of_fmap. simpl in *. subst.
    assert ((a', o') ∈ filter (λ u, u.1 = a') log) as Hf.
    { by apply list_elem_of_filter. }
    rewrite Hnil in Hf. by apply not_elem_of_nil in Hf.
  - intros (log1 & log2 & -> & ? & ?)%IH. exists ((a, o) :: log1), log2.
    split_and!; [done| |done]. rewrite fmap_cons. by apply not_elem_of_cons.
Qed.

(** ** Manufacturing the pairs *)

(** The pairs of [n] calls of [_make_intermediate_layer_wrapper]: the cells
    are the [n] addresses after those in use, each holding [None], and each
    wrapper class is closed over the cell it was made with. *)
Lemma make_wrappers_spec n (s : store X) :
  make_wrappers (E:=E) (K:=K) n s =
    ((λ aux, (aux, IntermediateWrapper aux)) <$> seq (length s) n,
     s ++ replicate n None).
Proof.
  revert s. induction n as [|n IH]; intros s; simpl.
  - by rewrite app_nil_r.
  - rewrite IH. rewrite length_app. simpl.
    replace (length s + 1) with (S (length s)) by lia.
    by rewrite <-app_assoc.
Qed.

Lemma made_cells (l : list nat) :
  ((λ aux, (aux, IntermediateWrapper (X:=X) (K:=K) (E:=E) aux)) <$> l).*1 = l.
Proof. induction l as [|a l IH]; [done|]. rewrite !fmap_cons, IH. done. Qed.

Lemma made_wrappers (l : list nat) :
  ((λ aux, (aux, IntermediateWrapper (X:=X) (K:=K) (E:=E) aux)) <$> l).*2
    = IntermediateWrapper <$> l.
Proof. induction l as [|a l IH]; [done|]. rewrite !fmap_cons, IH. done. Qed.

Lemma unpack_made (l : list nat) :
  l ≠ [] →
  unpack ((λ aux, (aux, IntermediateWrapper (X:=X) (K:=K) (E:=E) aux)) <$> l)
    = inr (l, IntermediateWrapper <$> l).
Proof.
  destruct l as [|a l]; [done|]. intros _. unfold unpack.
  rewrite fmap_cons. cbv beta iota. rewrite !fmap_cons.
  by rewrite made_cells, made_wrappers.
Qed.

(** What a successful construction went through. *)
Lemma getter_with_inr branch (m : module) sel (s : store X) g s' :
  getter_with branch m sel s = inr (g, s') →
  ∃ nodes,
    selected_nodes m (sel m) = inr nodes ∧
    len (sel m) ≠ 0 ∧
    auxs g = seq (length s) (len (sel m)) ∧
    s' = s ++ replicate (len (sel m)) None ∧
    branch m (sel m) nodes (IntermediateWrapper <$> seq (length s) (len (sel m)))
      = inr (model g).
Proof.
  unfold getter_with. destruct (selected_nodes m (sel m)) as [e|nodes]; [done|].
  simpl. rewrite make_wrappers_spec. unfold mbind, built_bind.
  destruct (decide (len (sel m) = 0)) as [->|Hn]; [done|].
  rewrite unpack_made by (by destruct (len (sel m))).
  destruct (branch m _ nodes _) as [e|m'] eqn:Hb; [done|].
  intros [= <- <-]. eauto 10.
Qed.

(** And a construction that goes through these succeeds. *)
Lemma getter_with_intro branch (m : module) sel (s : store X) nodes m' :
  selected_nodes m (sel m) = inr nodes →
  len (sel m) ≠ 0 →
  branch m (sel m) nodes (IntermediateWrapper <$> seq (length s) (len (sel m)))
    = inr m' →
  getter_with branch m sel s =
    inr (Getter m' (seq (length s) (len (sel m))), s ++ replicate (len (sel m)) None).
Proof.
  intros Hsel Hn Hb. unfold getter_with. rewrite Hsel. simpl.
  rewrite make_wrappers_spec. unfold mbind, built_bind.
  rewrite unpack_made by (by destruct (len (sel m))).
  by rewrite Hb.
Qed.

(** Without targets the unpacking raises, whatever the model. *)
Lemma getter_with_no_targets branch (m : module) sel (s : store X) nodes :
  selected_nodes m (sel m) = inr nodes →
  len (sel m) = 0 →
  getter_with branch m sel s = inl ValueError.
Proof.
  intros Hsel Hn. unfold getter_with. rewrite Hsel, Hn. done.
Qed.

(** ** The [nn.Sequential] branch *)

Lemma hits_cons tl idx n :
  hits tl idx (S n) =
    if contains idx tl then idx :: hits tl (S idx) n else hits tl (S idx) n.
Proof.
  unfold hits. simpl. rewrite filter_cons.
  destruct (contains idx tl); by case_decide.
Qed.

Lemma elem_of_hits tl idx n i :
  i ∈ hits tl idx n ↔ idx ≤ i < idx + n ∧ contains i tl = true.
Proof. unfold hits. rewrite list_elem_of_filter, elem_of_seq. tauto. Qed.

(** What the loop builds: the position met [j]-th among the selected ones is
    wrapped by the [j]-th wrapper not yet used, the others are kept. *)
Lemma wrap_layers_spec tl (ws : list (module → module)) layers :
  ∀ idx c layers',
  wrap_layers tl ws idx c layers = inr layers' →
  length layers' = length layers ∧
  (∀ j i, hits tl idx (length layers) !! j = Some i →
     ∃ w l, ws !! (c + j) = Some w ∧ layers !! (i - idx) = Some l ∧
            layers' !! (i - idx) = Some (w l)) ∧
  (∀ k l, layers !! k = Some l → contains (idx + k) tl = false →
     layers' !! k = Some l).
Proof.
  induction layers as [|m layers IH]; intros idx c layers' H; simpl in H.
  - injection H as <-. by split_and!.
  - simpl length. rewrite hits_cons. destruct (contains idx tl) eqn:Hc.
    + destruct (ws !! c) as [w|] eqn:Hw; [|done].
      destruct (wrap_layers tl ws (S idx) (S c) layers) as [e|rest] eqn:Hrec; [done|].
      injection H as <-. destruct (IH _ _ _ Hrec) as (Hlen & Hhit & Hkeep).
      split_and!.
      * simpl. lia.
      * intros [|j] i Hj; simpl in Hj.
        -- injection Hj as <-. exists w, m.
           by rewrite Nat.sub_diag, Nat.add_0_r.
        -- destruct (Hhit j i Hj) as (w' & l & Hw' & Hl & Hl').
           assert (S idx ≤ i).
           { apply list_elem_of_lookup_2, elem_of_hits in Hj. lia. }
           exists w', l. replace (c + S j) with (S c + j) by lia.
           by replace (i - idx) with (S (i - S idx)) by lia.
      * intros [|k] l Hl Hno; simpl in *.
        -- rewrite Nat.add_0_r in Hno. congruence.
        -- apply Hkeep; [done|]. rewrite <-Hno. f_equal. lia.
    + destruct (wrap_layers tl ws (S idx) c layers) as [e|rest] eqn:Hrec; [done|].
      injection H as <-. destruct (IH _ _ _ Hrec) as (Hlen & Hhit & Hkeep).
      split_and!.
      * simpl. lia.
      * intros j i Hj.
        destruct (Hhit j i Hj) as (w' & l & Hw' & Hl & Hl').
        assert (S idx ≤ i).
        { apply list_elem_of_lookup_2, elem_of_hits in Hj. lia. }
        exists w', l. by replace (i - idx) with (S (i - S idx)) by lia.
      * intros [|k] l Hl Hno; simpl in *; [done|].
        apply Hkeep; [done|]. rewrite <-Hno. f_equal. lia.
Qed.

(** The loop does not run out of wrappers when there are as many as
    positions to wrap. *)
Lemma wrap_layers_total tl (ws : list (module → module)) layers :
  ∀ idx c,
  c + length (hits tl idx (length layers)) ≤ length ws →
  ∃ layers', wrap_layers tl ws idx c layers = inr layers'.
Proof.
  induction layers as [|m layers IH]; intros idx c Hle; simpl; [by eexists|].
  simpl length in Hle. rewrite hits_cons in Hle.
  destruct (contains idx tl) eqn:Hc; simpl in Hle.
  - destruct (lookup_lt_is_Some_2 ws c) as [w ->]; [lia|].
    destruct (IH (S idx) (S c)) as [rest ->]; [lia|]. by eexists.
  - destruct (IH (S idx) c) as [rest ->]; [lia|]. by eexists.
Qed.

(** No more positions are wrapped than the selector returned targets. *)
Lemma length_hits tl n : length (hits tl 0 n) ≤ len tl.
Proof.
  destruct tl as [idxs|locs]; simpl.
  - rewrite <-(length_fmap Z.of_nat). apply submseteq_length, NoDup_submseteq.
    + apply (NoDup_fmap_2 _), NoDup_filter, NoDup_seq.
    + intros z (i & -> & Hi)%list_elem_of_fmap.
      apply elem_of_hits in Hi as [_ Hi]. simpl in Hi.
      by apply bool_decide_eq_true in Hi.
  - unfold hits. simpl. induction (seq 0 n) as [|i l IH]; [simpl; lia|].
    by rewrite filter_cons_False.
Qed.

(** ** Locations *)


Lemma overlap_sym (p q : path) : overlap p q = overlap q p.
Proof.
  revert q. induction p as [|i p IH]; intros [|k q]; simpl; try done.
  rewrite IH. f_equal. apply bool_decide_ext. naive_solver.
Qed.

Lemma children_with_children (m : module) cs i :
  i < length (children m) → length cs = length (children m) →
  children (with_children m cs) = cs.
Proof.
  destruct m as [apply|layers|fields forward|aux layer]; simpl; try done; [lia|].
  intros _ Hlen. by destruct cs as [|c [|??]].
Qed.

Lemma unwrap_with_children (p : nat → bool) (m : module) cs :
  unwrap p <$> cs = unwrap p <$> children m →
  unwrap p (with_children m cs) = unwrap p m.
Proof.
  destruct m as [apply|layers|fields forward|aux layer]; simpl; try done.
  - by intros ->.
  - by intros ->.
  - destruct cs as [|c [|??]]; simpl; try done. by intros [= ->].
Qed.

Lemma replace_at_subtree loc r (m m' : module) :
  replace_at loc r m = Some m' → subtree m' loc = Some r.
Proof.
  revert m m'. induction loc as [|i loc IH]; intros m m' H; simpl in *.
  - by injection H as ->.
  - destruct (children m !! i) as [c|] eqn:Hc; [|done]. simpl in H.
    destruct (replace_at loc r c) as [c'|] eqn:Hc'; [|done]. simpl in H.
    injection H as <-. apply lookup_lt_Some in Hc as Hlt.
    rewrite (children_with_children _ _ i) by (by rewrite ?length_insert).
    rewrite list_lookup_insert_eq by done. simpl. eauto.
Qed.

Lemma replace_at_other loc r (m m' : module) q :
  replace_at loc r m = Some m' → overlap loc q = false →
  subtree m' q = subtree m q.
Proof.
  revert m m' q. induction loc as [|i loc IH]; intros m m' q H Ho; [done|].
  destruct q as [|k q]; [done|]. simpl in *.
  destruct (children m !! i) as [c|] eqn:Hc; [|done]. simpl in H.
  destruct (replace_at loc r c) as [c'|] eqn:Hc'; [|done]. simpl in H.
  injection H as <-. apply lookup_lt_Some in Hc as Hlt.
  rewrite (children_with_children _ _ i) by (by rewrite ?length_insert).
  destruct (decide (i = k)) as [->|Hne].
  - rewrite bool_decide_eq_true_2 in Ho by done. simpl in Ho.
    rewrite list_lookup_insert_eq, Hc by done. simpl. eauto.
  - by rewrite list_lookup_insert_ne.
Qed.

Lemma replace_at_is_Some loc r (m : module) :
  is_Some (replace_at loc r m) ↔ is_Some (subtree m loc).
Proof.
  revert m. induction loc as [|i loc IH]; intros m; simpl; [by split; eauto|].
  destruct (children m !! i) as [c|]; simpl; [|by split; intros [??]].
  rewrite <-IH. destruct (replace_at loc r c); simpl; split; intros [??]; eauto; done.
Qed.

Lemma unwrap_replace_at (p : nat → bool) loc r (m m' t : module) :
  replace_at loc r m = Some m' → subtree m loc = Some t →
  unwrap p r = unwrap p t → unwrap p m' = unwrap p m.
Proof.
  revert m m'. induction loc as [|i loc IH]; intros m m' H Ht Hr; simpl in *.
  - congruence.
  - destruct (children m !! i) as [c|] eqn:Hc; [|done]. simpl in *.
    destruct (replace_at loc r c) as [c'|] eqn:Hc'; [|done]. simpl in H.
    injection H as <-. apply unwrap_with_children.
    rewrite list_fmap_insert, (IH c c') by done.
    apply list_insert_id. by rewrite list_lookup_fmap, Hc.
Qed.

(** Replacing at separate locations: each location holds its replacement,
    and what lies apart from all of them is as before. *)
Lemma replace_all_spec locs :
  ∀ rs (m m' : module),
  separate locs = true → replace_all locs rs m = Some m' →
  length rs = length locs ∧
  (∀ j loc r, locs !! j = Some loc → rs !! j = Some r → subtree m' loc = Some r) ∧
  (∀ q, Forall (λ loc, overlap loc q = false) locs → subtree m' q = subtree m q).
Proof.
  induction locs as [|loc locs IH]; intros [|r rs] m m' Hsep H; simpl in *; try done.
  - injection H as <-. by split_and!.
  - destruct (replace_at loc r m) as [m1|] eqn:H1; [|done]. simpl in H.
    apply andb_true_iff in Hsep as [Hloc Hsep].
    destruct (IH _ _ _ Hsep H) as (Hlen & Hat & Hother).
    assert (Forall (λ loc', overlap loc' loc = false) locs) as Hapart.
    { apply Forall_forall. intros loc' Hin.
      rewrite forallb_forall in Hloc. rewrite overlap_sym.
      apply negb_true_iff, Hloc. by apply list_elem_of_In. }
    split_and!.
    + by rewrite Hlen.
    + intros [|j] loc0 r0; simpl; [|by apply Hat].
      intros [= <-] [= <-]. rewrite Hother by done.
      by apply replace_at_subtree in H1.
    + intros q [Hq Hqs]%Forall_cons. rewrite Hother by done.
      by apply replace_at_other with (q := q) in H1.
Qed.

Lemma unwrap_replace_all (p : nat → bool) locs :
  ∀ rs (m m' : module),
  separate locs = true → replace_all locs rs m = Some m' →
  Forall2 (λ loc r, ∃ t, subtree m loc = Some t ∧ unwrap p r = unwrap p t) locs rs →
  unwrap p m' = unwrap p m.
Proof.
  induction locs as [|loc locs IH]; intros [|r rs] m m' Hsep H Hrs; simpl in *; try done.
  - by injection H as <-.
  - destruct (replace_at loc r m) as [m1|] eqn:H1; [|done]. simpl in H.
    apply andb_true_iff in Hsep as [Hloc Hsep].
    apply Forall2_cons in Hrs as [(t & Ht & Hr) Hrs].
    rewrite (IH _ _ _ Hsep H).
    + by apply unwrap_replace_at with (p := p) (t := t) in H1.
    + apply Forall2_same_length_lookup in Hrs as [Hlen Hrs].
      apply Forall2_same_length_lookup. split; [done|].
      intros j loc' r' Hj Hj'. destruct (Hrs j loc' r' Hj Hj') as (t' & Ht' & Hr').
      exists t'. split; [|done].
      rewrite <-Ht'. apply replace_at_other with (q := loc') in H1; [done|].
      rewrite forallb_forall in Hloc.
      apply negb_true_iff, Hloc, list_elem_of_In. by eapply list_elem_of_lookup_2.
Qed.

(** ** Locations listed more than once *)

Lemma last_listings_sublist {A} (ps : list (path * A)) :
  last_listings ps `sublist_of` ps.
Proof.
  induction ps as [|lr ps IH]; simpl; [done|].
  case_bool_decide; [by apply sublist_cons|by apply sublist_skip].
Qed.

Lemma last_listings_fmap {A B} (f : A → B) (ps : list (path * A)) :
  last_listings (prod_map id f <$> ps) = prod_map id f <$> last_listings ps.
Proof.
  induction ps as [|[loc a] ps IH]; csimpl; [done|].
  rewrite <-list_fmap_compose.
  rewrite (list_fmap_ext (fst ∘ prod_map id f) fst ps) by by intros ? [??] ?.
  case_bool_decide; csimpl; by rewrite IH.
Qed.

(** A pair counts exactly when its location is not listed again. *)
Lemma elem_of_last_listings {A} (ps : list (path * A)) loc a :
  (loc, a) ∈ last_listings ps ↔
  ∃ j, ps !! j = Some (loc, a) ∧ loc ∉ (drop (S j) ps).*1.
Proof.
  induction ps as [|[loc0 a0] ps IH]; simpl.
  - split; [by intros ?%elem_of_nil|by intros (j & ? & _)].
  - case_bool_decide as Hin; simpl in Hin.
    + rewrite IH. split.
      * intros (j & Hj & Hno). by exists (S j).
      * intros ([|j] & Hj & Hno); simpl in *; [|by exists j].
        injection Hj as -> ->. by rewrite drop_0 in Hno.
    + rewrite elem_of_cons, IH. split.
      * intros [[= -> ->]|(j & Hj & Hno)]; [|by exists (S j)].
        exists 0. by rewrite drop_0.
      * intros ([|j] & Hj & Hno); simpl in *; [left; congruence|right; by exists j].
Qed.

Lemma NoDup_last_listings {A} (ps : list (path * A)) :
  NoDup (last_listings ps).*1.
Proof.
  induction ps as [|[loc a] ps IH]; csimpl; [constructor|].
  case_bool_decide as Hin; csimpl; [done|]. constructor; [|done].
  intros Hin'. apply Hin. simpl.
  eapply elem_of_sublist; [exact Hin'|]. apply fmap_sublist, last_listings_sublist.
Qed.

Lemma last_listings_NoDup {A} (ps : list (path * A)) :
  NoDup ps.*1 → last_listings ps = ps.
Proof.
  induction ps as [|[loc a] ps IH]; csimpl; [done|].
  intros [Hno Hnd]%NoDup_cons. rewrite bool_decide_eq_false_2 by done.
  by rewrite IH.
Qed.

Lemma overlap_refl (p : path) : overlap p p = true.
Proof. induction p as [|i p IH]; simpl; [done|]. by rewrite bool_decide_eq_true_2. Qed.

Lemma separate_NoDup (locs : list path) : separate locs = true → NoDup locs.
Proof.
  induction locs as [|p locs IH]; simpl; [constructor|].
  intros [Hp Hsep]%andb_true_iff. constructor; [|by apply IH].
  intros Hin. rewrite forallb_forall in Hp.
  specialize (Hp p (proj1 (list_elem_of_In _ _) Hin)).
  by rewrite overlap_refl in Hp.
Qed.

(** Locations that are separate are each listed once, and [eqx.tree_at]
    substitutes at all of them. *)
Lemma tree_at_separate locs rs (m : module) :
  separate locs = true → length rs = length locs →
  tree_at locs m rs = replace_all locs rs m.
Proof.
  intros Hsep Hlen. unfold tree_at.
  rewrite last_listings_NoDup by (rewrite fst_zip by lia; by apply separate_NoDup).
  rewrite fst_zip, snd_zip by lia.
  by rewrite bool_decide_eq_true_2, Hsep by done.
Qed.

(** The locations that count, with the cells and the nodes of their
    listings. *)
Lemma last_listings_cells {A B} (locs : list path) (cs : list B) (nodes : list A) :
  length cs = length locs → length nodes = length locs →
  (last_listings (zip locs (zip cs nodes))).*1 = (last_listings (zip locs cs)).*1 ∧
  (last_listings (zip locs (zip cs nodes))).*2.*1 = (last_listings (zip locs cs)).*2.
Proof.
  intros Hc Hn.
  assert (zip locs cs = prod_map id fst <$> zip locs (zip cs nodes)) as ->.
  { revert cs nodes Hc Hn.
    induction locs as [|loc locs IH]; intros [|c cs] [|t nodes] ??; simplify_eq/=; try done.
    f_equal. apply IH; lia. }
  rewrite last_listings_fmap, <-!list_fmap_compose. split.
  - apply list_fmap_ext. by intros ? [? [??]] ?.
  - apply list_fmap_ext. by intros ? [? [??]] ?.
Qed.

Lemma uncurry_zip_with {A B C} (f : A → B → C) (l : list (A * B)) :
  zip_with f l.*1 l.*2 = uncurry f <$> l.
Proof. induction l as [|[a b] l IH]; csimpl; [done|]. by rewrite IH. Qed.

Lemma zip_fmap_snd {A B C} (g : B → C) (l : list A) (k : list B) :
  zip l (g <$> k) = prod_map id g <$> zip l k.
Proof.
  revert k. induction l as [|a l IH]; intros [|b k]; csimpl; try done. by rewrite IH.
Qed.

Lemma lookup_last_listings {A} (locs : list path) (l : list A) j loc a :
  length l = length locs →
  locs !! j = Some loc → l !! j = Some a → loc ∉ drop (S j) locs →
  ∃ k, last_listings (zip locs l) !! k = Some (loc, a).
Proof.
  intros Hlen Hloc Ha Hno. apply list_elem_of_lookup_1, elem_of_last_listings.
  exists j. split.
  - apply lookup_zip_with_Some. eauto.
  - by rewrite fmap_drop, fst_zip by lia.
Qed.

Lemma last_listings_lookup {A} (locs : list path) (l : list A) k loc a :
  length l = length locs →
  last_listings (zip locs l) !! k = Some (loc, a) →
  ∃ j, locs !! j = Some loc ∧ l !! j = Some a ∧ loc ∉ drop (S j) locs.
Proof.
  intros Hlen Hk. apply list_elem_of_lookup_2, elem_of_last_listings in Hk as (j & Hj & Hno).
  exists j. apply lookup_zip_with_Some in Hj as (loc' & a' & [= -> ->] & Hloc & Ha).
  split_and!; [done|done|]. by rewrite fmap_drop, fst_zip in Hno by lia.
Qed.

(** The nodes at the locations that count are the nodes the selector
    returned for them. *)
Lemma last_listings_nodes {A} (m : module) locs (cs : list A) nodes :
  Forall2 (λ loc t, subtree m loc = Some t) locs nodes →
  Forall (λ lr : path * (A * module), subtree m lr.1 = Some lr.2.2)
    (last_listings (zip locs (zip cs nodes))).
Proof.
  intros Hn. apply Forall_forall. intros [loc [c t]] Hin. simpl.
  apply elem_of_last_listings in Hin as (j & Hj & _).
  apply lookup_zip_with_Some in Hj as (loc' & ct & [= <- <-] & Hloc & Hct).
  apply lookup_zip_with_Some in Hct as (c' & t' & [= <- <-] & Hc & Ht).
  exact (Forall2_lookup_lr _ _ _ _ _ _ Hn Hloc Ht).
Qed.

(** ** The two branches *)

Lemma sequential_branch_inr layers tl ws (m' : module) :
  sequential_branch layers tl ws = inr m' →
  ∃ layers', m' = Sequential layers' ∧ wrap_layers tl ws 0 0 layers = inr layers'.
Proof.
  unfold sequential_branch. destruct (wrap_layers tl ws 0 0 layers) as [e|layers']; [done|].
  intros [= <-]. eauto.
Qed.

(** What [eqx.tree_at] returns in the [else] branch: the locations that
    count are separate, and each holds the wrapper of its last listing. *)
Lemma tree_at_branch_inr (m : module) tl nodes cs m' :
  tree_at_branch m tl nodes (IntermediateWrapper <$> cs) = inr m' →
  ∃ locs, tl = Nodes locs ∧
    separate (last_listings (zip locs (zip cs nodes))).*1 = true ∧
    replace_all (last_listings (zip locs (zip cs nodes))).*1
      (uncurry IntermediateWrapper <$> (last_listings (zip locs (zip cs nodes))).*2) m
      = Some m'.
Proof.
  unfold tree_at_branch, tree_at. destruct tl as [idxs|locs]; [done|].
  rewrite zip_with_fmap_l, zip_with_zip, zip_fmap_snd, last_listings_fmap.
  rewrite <-!list_fmap_compose.
  rewrite (list_fmap_ext (fst ∘ prod_map id (uncurry IntermediateWrapper)) fst)
    by by intros ? [??] ?.
  rewrite (list_fmap_ext (snd ∘ prod_map id (uncurry (IntermediateWrapper (X:=X) (K:=K) (E:=E))))
             (uncurry IntermediateWrapper ∘ snd)) by by intros ? [??] ?.
  case_bool_decide as Hlen; [|done]. simpl.
  destruct (separate _) eqn:Hsep; [|done].
  destruct (replace_all _ _ m) as [m1|] eqn:H; [|done].
  intros [= <-]. exists locs. by rewrite <-list_fmap_compose.
Qed.

Lemma selected_nodes_inr (m : module) locs nodes :
  selected_nodes m (Nodes locs) = inr nodes →
  Forall2 (λ loc t, subtree m loc = Some t) locs nodes.
Proof.
  simpl. destruct (mapM (subtree m) locs) as [ns|] eqn:H; [|done].
  intros [= <-]. by apply mapM_Some.
Qed.

Lemma sequential_branch_unwrap (p : nat → bool) layers tl cs (m' : module) :
  sequential_branch layers tl (IntermediateWrapper <$> cs) = inr m' →
  Forall (λ a, p a = true) cs →
  unwrap p m' = unwrap p (Sequential layers).
Proof.
  intros (layers' & -> & H)%sequential_branch_inr Hp. simpl. f_equal.
  apply wrap_layers_spec in H as (Hlen & Hhit & Hkeep).
  apply list_eq. intros k. rewrite !list_lookup_fmap.
  destruct (layers !! k) as [l|] eqn:Hl.
  - destruct (contains k tl) eqn:Hc.
    + assert (k ∈ hits tl 0 (length layers)) as [j Hj]%list_elem_of_lookup_1.
      { apply elem_of_hits. apply lookup_lt_Some in Hl. split; [lia|done]. }
      destruct (Hhit j k Hj) as (w & l0 & Hw & Hl0 & Hl').
      rewrite Nat.sub_0_r in Hl0, Hl'. rewrite Hl', Hl in *. simplify_eq. simpl.
      apply list_lookup_fmap_Some in Hw as (a & -> & Ha).
      rewrite Forall_forall in Hp. simpl.
      by rewrite (Hp a) by by eapply list_elem_of_lookup_2.
    + by rewrite (Hkeep k l).
  - apply lookup_ge_None in Hl. rewrite (proj2 (lookup_ge_None layers' k)) by lia. done.
Qed.

Lemma tree_at_branch_unwrap (p : nat → bool) (m : module) tl nodes cs m' :
  selected_nodes m tl = inr nodes →
  tree_at_branch m tl nodes (IntermediateWrapper <$> cs) = inr m' →
  Forall (λ a, p a = true) cs →
  unwrap p m' = unwrap p m.
Proof.
  intros Hsel (locs & -> & Hsep & H)%tree_at_branch_inr Hp.
  apply selected_nodes_inr in Hsel.
  apply (unwrap_replace_all p) in H; [done..|].
  rewrite <-list_fmap_compose. apply Forall2_fmap, Forall_Forall2_diag, Forall_forall.
  intros [loc [c t]] Hin. simpl. exists t.
  pose proof (last_listings_nodes m locs cs nodes Hsel) as Hn.
  rewrite Forall_forall in Hn. rewrite Forall_forall in Hp.
  split; [exact (Hn _ Hin)|].
  rewrite Hp; [done|].
  pose proof (elem_of_sublist _ _ _ Hin (last_listings_sublist _)) as Hz.
  apply list_elem_of_lookup_1 in Hz as [j Hj].
  apply lookup_zip_with_Some in Hj as (loc' & ct & [= <- <-] & Hloc & Hct).
  apply lookup_zip_with_Some in Hct as (c' & t' & [= <- <-] & Hc & Ht).
  by eapply list_elem_of_lookup_2.
Qed.

Lemma by_kind_unwrap (p : nat → bool) (m : module) tl nodes cs m' :
  selected_nodes m tl = inr nodes →
  by_kind m tl nodes (IntermediateWrapper <$> cs) = inr m' →
  Forall (λ a, p a = true) cs →
  unwrap p m' = unwrap p m.
Proof.
  intros Hsel Hb Hp. destruct m; unfold by_kind in Hb.
  all: first [ by eapply (sequential_branch_unwrap p)
             | by eapply (tree_at_branch_unwrap p); [exact Hsel|exact Hb|exact Hp] ].
Qed.

(** The model of the getter is the model passed in, but for the wrappers
    around the new cells. *)
Lemma getter_model_unwrap (p : nat → bool) (m : module) sel (s : store X) g s' :
  intermediate_layer_getter m sel s = inr (g, s') →
  Forall (λ a, p a = true) (auxs g) →
  unwrap p (model g) = unwrap p m.
Proof.
  intros (nodes & Hsel & _ & Haux & _ & Hb)%getter_with_inr Hp.
  rewrite Haux in Hp. by eapply by_kind_unwrap.
Qed.

(** ** Claims *)

(** The getter's outcome is that of the model passed in. *)
Lemma getter_outcome (m : module) sel (s : store X) g s' x key (s0 s1 : store X) :
  intermediate_layer_getter m sel s = inr (g, s') →
  final_output (getter_call g x key s1).1 = (forward_pass m x key s0).1.
Proof.
  intros Hg.
  assert ((forward_pass (model g) x key s1).1 = (forward_pass m x key s0).1) as <-.
  { apply same_unwrapped_same_outcome with (p := λ _, true).
    eapply getter_model_unwrap; [done|]. by apply Forall_forall. }
  rewrite getter_call_eq.
  by destruct (forward_pass (model g) x key s1) as [[e|out] s2].
Qed.

(** C1 (pass-through correctness).  Whatever the model, the selector, the
    input and the key: the first component of what the instrumented model
    returns is what the model passed in returns on that input and key; and
    when the one raises, the other raises the same. *)
Theorem pass_through (m : module) sel (s : store X) g s' :
  intermediate_layer_getter m sel s = inr (g, s') →
  ∀ x key (s0 s1 : store X),
    final_output (getter_call g x key s1).1 = (forward_pass m x key s0).1.
Proof. intros Hg x key s0 s1. by eapply getter_outcome. Qed.

(** ** Reading the cells after a call *)

Lemma getter_call_store g x key (s : store X) :
  (getter_call g x key s).2 = replay s (updates (model g) x key).
Proof.
  rewrite getter_call_eq, <-forward_pass_replay.
  by destruct (forward_pass (model g) x key s) as [[e|out] s2].
Qed.

Lemma getter_call_captures g x key (s : store X) caps :
  captures (getter_call g x key s).1 = Some caps →
  caps = AuxData_data (getter_call g x key s).2 <$> auxs g.
Proof.
  rewrite getter_call_eq.
  destruct (forward_pass (model g) x key s) as [[e|out] s2]; simpl; congruence.
Qed.

Lemma getter_cells (m : module) sel (s : store X) g s' :
  intermediate_layer_getter m sel s = inr (g, s') →
  auxs g = seq (length s) (len (sel m)) ∧
  s' = s ++ replicate (len (sel m)) None ∧ len (sel m) ≠ 0.
Proof. intros (nodes & _ & ? & ? & ? & _)%getter_with_inr. done. Qed.

Lemma getter_cell_allocated (m : module) sel (s : store X) g s' j aux :
  intermediate_layer_getter m sel s = inr (g, s') →
  auxs g !! j = Some aux →
  aux = length s + j ∧ aux < length s' ∧ AuxData_data s' aux = None.
Proof.
  intros (Haux & -> & _)%getter_cells Hj. rewrite Haux in Hj.
  apply lookup_seq in Hj as [-> Hlt]. rewrite length_app, length_replicate.
  split_and!; [done|lia|]. unfold AuxData_data.
  rewrite lookup_app_r, Nat.add_comm, Nat.add_sub by lia.
  by rewrite lookup_replicate_2.
Qed.

(** The pass over a pipeline ends with what a layer raises on the value
    that reaches it. *)
Lemma call_layers_raise {St : Type} (update : nat → X → St → St) key n layers :
  ∀ idx i (l : module) x y e (s s1 s2 : St),
  layers !! i = Some l →
  (call_layers layer_key key n idx (call update <$> take i layers) x s).1 = inr y →
  (call update l y (layer_key key n (idx + i)) s2).1 = inl e →
  (call_layers layer_key key n idx (call update <$> layers) x s1).1 = inl e.
Proof.
  induction layers as [|a layers IH]; intros idx [|i] l x y e s s1 s2 Hl Hpre He;
    simpl in *; try done.
  - injection Hl as ->. injection Hpre as ->. rewrite Nat.add_0_r in He.
    rewrite (call_outcome update update l y _ s2 s1) in He.
    by destruct (call update l y (layer_key key n idx) s1) as [[e'|out] s3];
      simpl in *; simplify_eq.
  - pose proof (call_outcome update update a x (layer_key key n idx) s s1) as Ha.
    destruct (call update a x (layer_key key n idx) s) as [[e'|out] s3];
      destruct (call update a x (layer_key key n idx) s1) as [[e''|out'] s4];
      simpl in *; simplify_eq.
    eapply (IH (S idx) i l out' y e s3 s4 s2); [done..|].
    by replace (S idx + i) with (idx + S i) by lia.
Qed.

(** C7 (error propagation).  What a wrapped sub-component raises, its
    wrapper raises, writing nothing; what the instrumented model's inner
    model raises, the getter raises; so the getter raises whatever the model
    passed in raises on the same input and key, and for a pipeline that is
    what any of its layers raises on the value that reaches it. *)
Theorem errors_propagate (m : module) sel (s : store X) g s' :
  intermediate_layer_getter m sel s = inr (g, s') →
  (∀ aux (layer : module) x key (s0 s1 : store X) e,
     forward_pass layer x key s0 = (inl e, s1) →
     forward_pass (IntermediateWrapper aux layer) x key s0 = (inl e, s1)) ∧
  (∀ x key (s0 s1 : store X) e,
     forward_pass (model g) x key s0 = (inl e, s1) →
     getter_call g x key s0 = (inl e, s1)) ∧
  (∀ x key (s0 s1 : store X) e,
     (forward_pass m x key s0).1 = inl e →
     (getter_call g x key s1).1 = inl e) ∧
  (∀ layers i (l : module) x key y e (s1 s2 : store X),
     m = Sequential layers → layers !! i = Some l →
     reaches layers key i x = inr y →
     (forward_pass l y (layer_key key (length layers) i) s2).1 = inl e →
     (getter_call g x key s1).1 = inl e).
Proof.
  intros Hg.
  assert (∀ x key (s0 s1 : store X) e,
     (forward_pass m x key s0).1 = inl e → (getter_call g x key s1).1 = inl e) as Hend.
  { intros x key s0 s1 e He.
    pose proof (getter_outcome m sel s g s' x key s0 s1 Hg) as Hp.
    rewrite He in Hp. by destruct (getter_call g x key s1) as [[e'|[out caps]] s2];
      simpl in *; simplify_eq. }
  split_and!; [| |done|].
  - intros aux layer x key s0 s1 e H. rewrite forward_pass_eq in *. simpl. by rewrite H.
  - intros x key s0 s1 e H. by rewrite getter_call_eq, H.
  - intros layers i l x key y e s1 s2 -> Hl Hpre He.
    apply (Hend x key s1). rewrite forward_pass_eq in *. simpl.
    by eapply (call_layers_raise AuxData_update key _ layers 0 i l x y e [] s1 s2).
Qed.

(** The entry of a target is what the last update of its cell wrote. *)
Lemma capture_is_last_update (m : module) sel (s : store X) g s'
    x key (s1 : store X) j aux log1 out log2 caps :
  intermediate_layer_getter m sel s = inr (g, s') →
  length s' ≤ length s1 →
  auxs g !! j = Some aux →
  updates (model g) x key = log1 ++ (aux, out) :: log2 →
  aux ∉ log2.*1 →
  captures (getter_call g x key s1).1 = Some caps →
  caps !! j = Some (Some out).
Proof.
  intros Hg Hlen Hj Hlog Hlast Hcaps.
  apply getter_call_captures in Hcaps as ->.
  rewrite list_lookup_fmap, Hj, getter_call_store, Hlog. simpl. f_equal.
  apply data_replay_last; [|done].
  destruct (getter_cell_allocated _ _ _ _ _ _ _ Hg Hj) as (_ & ? & _). lia.
Qed.

(** C4 (last write wins).  [update] overwrites whatever the cell held; and
    when the wrapper of a target runs its layer several times in one forward
    call, the entry of that target in the capture list is what the layer
    returned the last of these times. *)
Theorem last_write_wins (m : module) sel (s : store X) g s' :
  intermediate_layer_getter m sel s = inr (g, s') →
  (∀ aux x (s0 : store X),
     aux < length s0 → AuxData_data (AuxData_update aux x s0) aux = Some x) ∧
  (∀ x key (s1 : store X) j aux log1 out log2 caps,
     length s' ≤ length s1 →
     auxs g !! j = Some aux →
     updates (model g) x key = log1 ++ (aux, out) :: log2 →
     aux ∉ log2.*1 →
     captures (getter_call g x key s1).1 = Some caps →
     caps !! j = Some (Some out)).
Proof.
  intros Hg. split; [intros; by apply data_update_eq|].
  intros. by eapply capture_is_last_update.
Qed.

(** C5 (capture content).  A wrapper calls its layer on the input and the
    key it was given, writes what the layer returns into its cell and
    returns the same; so when the wrapper of a target runs its layer exactly
    once in a forward call, the entry of that target in the capture list is
    what the layer returned in that call. *)
Theorem capture_content (m : module) sel (s : store X) g s' :
  intermediate_layer_getter m sel s = inr (g, s') →
  (∀ aux (layer : module) x key (s0 : store X),
     forward_pass (IntermediateWrapper aux layer) x key s0 =
       match forward_pass layer x key s0 with
       | (inr out, s1) => (inr out, AuxData_update aux out s1)
       | (inl e, s1) => (inl e, s1)
       end) ∧
  (∀ aux (layer : module) x key,
     updates (IntermediateWrapper aux layer) x key =
       match (forward_pass layer x key []).1 with
       | inr out => updates layer x key ++ [(aux, out)]
       | inl _ => updates layer x key
       end) ∧
  (∀ x key (s1 : store X) j aux out caps,
     length s' ≤ length s1 →
     auxs g !! j = Some aux →
     filter (λ u, u.1 = aux) (updates (model g) x key) = [(aux, out)] →
     captures (getter_call g x key s1).1 = Some caps →
     caps !! j = Some (Some out)).
Proof.
  intros Hg. split_and!.
  - done.
  - intros aux layer x key. rewrite updates_wrapper, forward_pass_eq.
    by rewrite (call_outcome record AuxData_update layer x key [] []).
  - intros x key s1 j aux out caps Hlen Hj Honce Hcaps.
    apply only_update_split in Honce as (log1 & log2 & Hlog & _ & Hlast).
    by eapply capture_is_last_update.
Qed.

(** A call in which no wrapper closed over a cell completes leaves the cell
    as it was. *)
Lemma getter_call_keeps g x key (s : store X) aux :
  aux ∉ (updates (model g) x key).*1 →
  AuxData_data (getter_call g x key s).2 aux = AuxData_data s aux.
Proof. intros Hno. rewrite getter_call_store. by apply data_replay_other. Qed.

Lemma after_calls_keeps g calls (s : store X) aux :
  Forall (λ c, aux ∉ (updates (model g) c.1 c.2).*1) calls →
  AuxData_data (after_calls g calls s) aux = AuxData_data s aux.
Proof.
  revert s. induction calls as [|[x key] calls IH]; intros s Hno; [done|].
  apply Forall_cons in Hno as [Hc Hno].
  change (after_calls g ((x, key) :: calls) s)
    with (after_calls g calls (getter_call g x key s).2).
  rewrite IH by done. by apply getter_call_keeps.
Qed.

(** C9 (cells start as None and only their wrapper writes them).  The cells
    of a new getter hold [None]; a forward pass writes only the cells of the
    wrappers in the model, and only when such a wrapper has run its layer;
    so after any series of calls in none of which the wrapper of a target
    has run its layer, and in a further such call, the entry of that target
    in the capture list is [None]. *)
Theorem unwritten_is_None (m : module) sel (s : store X) g s' :
  intermediate_layer_getter m sel s = inr (g, s') →
  (∀ j aux, auxs g !! j = Some aux →
     length s ≤ aux < length s' ∧ AuxData_data s' aux = None) ∧
  (∀ (m0 : module) x key aux, aux ∈ (updates m0 x key).*1 → aux ∈ cells m0) ∧
  (∀ (m0 : module) x key (s0 : store X) aux,
     aux ∉ (updates m0 x key).*1 →
     AuxData_data (forward_pass m0 x key s0).2 aux = AuxData_data s0 aux) ∧
  (∀ calls x key j aux caps,
     auxs g !! j = Some aux →
     Forall (λ c, aux ∉ (updates (model g) c.1 c.2).*1) calls →
     aux ∉ (updates (model g) x key).*1 →
     captures (getter_call g x key (after_calls g calls s')).1 = Some caps →
     caps !! j = Some None).
Proof.
  intros Hg. split_and!.
  - intros j aux Hj.
    destruct (getter_cell_allocated _ _ _ _ _ _ _ Hg Hj) as (-> & ? & ?).
    split; [lia|done].
  - intros m0 x key aux ((a & o) & -> & Hin)%list_elem_of_fmap.
    pose proof (updates_cells m0 x key) as Hall.
    rewrite Forall_forall in Hall. by apply (Hall (a, o)).
  - intros m0 x key s0 aux Hno. rewrite forward_pass_replay.
    by apply data_replay_other.
  - intros calls x key j aux caps Hj Hcalls Hcall Hcaps.
    apply getter_call_captures in Hcaps as ->.
    rewrite list_lookup_fmap, Hj. simpl. f_equal.
    rewrite getter_call_keeps, after_calls_keeps by done.
    by destruct (getter_cell_allocated _ _ _ _ _ _ _ Hg Hj) as (_ & _ & ?).
Qed.

(** For a pipeline and at least one target the construction succeeds: the
    loop never runs out of wrappers. *)
Lemma sequential_getter_total (layers : list module) sel (s : store X) nodes :
  selected_nodes (Sequential layers) (sel (Sequential layers)) = inr nodes →
  len (sel (Sequential layers)) ≠ 0 →
  ∃ g s', intermediate_layer_getter (Sequential layers) sel s = inr (g, s').
Proof.
  intros Hsel Hn.
  destruct (wrap_layers_total (sel (Sequential layers))
              (IntermediateWrapper <$> seq (length s) (len (sel (Sequential layers))))
              layers 0 0) as [layers' H].
  { rewrite length_fmap, length_seq. simpl. apply length_hits. }
  do 2 eexists. apply (getter_with_intro by_kind _ _ _ nodes); [done..|].
  simpl. unfold sequential_branch. by rewrite H.
Qed.

(** ** Which positions the loop wraps *)

Lemma hits_ext tl tl' n :
  ∀ idx, (∀ i, idx ≤ i < idx + n → contains i tl = contains i tl') →
  hits tl idx n = hits tl' idx n.
Proof.
  induction n as [|n IH]; intros idx Hext; [done|].
  rewrite !hits_cons, (Hext idx) by lia.
  rewrite (IH (S idx)) by (intros; apply Hext; lia). done.
Qed.

Lemma hits_no_indices idx n : hits (Indices []) idx n = [].
Proof.
  revert idx. induction n as [|n IH]; intros idx; [done|].
  rewrite hits_cons, IH. done.
Qed.

(** Positions returned in increasing order, all in range, are met in that
    order. *)
Lemma hits_increasing n :
  ∀ idx idxs,
  StronglySorted Z.lt idxs →
  Forall (λ z, Z.of_nat idx ≤ z < Z.of_nat (idx + n))%Z idxs →
  hits (Indices idxs) idx n = Z.to_nat <$> idxs.
Proof.
  induction n as [|n IH]; intros idx idxs Hs Hr.
  - destruct idxs as [|z idxs]; [done|]. apply Forall_cons in Hr as [? _]. lia.
  - rewrite hits_cons. destruct idxs as [|z idxs].
    + simpl. by rewrite hits_no_indices.
    + apply StronglySorted_inv in Hs as [Hs Hz].
      apply Forall_cons in Hr as [Hzr Hr]. simpl contains.
      destruct (decide (z = Z.of_nat idx)) as [->|Hne].
      * rewrite bool_decide_eq_true_2 by apply list_elem_of_here.
        rewrite fmap_cons, Nat2Z.id. f_equal.
        rewrite (hits_ext _ (Indices idxs)).
        -- apply IH; [done|]. apply Forall_forall. intros z' Hin.
           rewrite Forall_forall in Hz, Hr. specialize (Hz z' Hin).
           specialize (Hr z' Hin). lia.
        -- intros i Hi. simpl. apply bool_decide_ext.
           rewrite elem_of_cons. split; [intros [?|?]; [lia|done]|by right].
      * rewrite bool_decide_eq_false_2.
        -- apply IH; [by constructor|]. apply Forall_cons. split; [lia|].
           apply Forall_forall. intros z' Hin.
           rewrite Forall_forall in Hz, Hr. specialize (Hz z' Hin).
           specialize (Hr z' Hin). lia.
        -- rewrite elem_of_cons. intros [?|Hin]; [lia|].
           rewrite Forall_forall in Hz. specialize (Hz _ Hin). lia.
Qed.

(** Distinct positions, all in range, are all met. *)
Lemma length_hits_NoDup n idxs :
  NoDup idxs →
  Forall (λ z, 0 ≤ z < Z.of_nat n)%Z idxs →
  length (hits (Indices idxs) 0 n) = length idxs.
Proof.
  intros Hnd Hr. rewrite <-(length_fmap Z.of_nat). apply Permutation_length.
  apply NoDup_Permutation; [|done|].
  - apply (NoDup_fmap_2 _), NoDup_filter, NoDup_seq.
  - intros z. rewrite list_elem_of_fmap. split.
    + intros (i & -> & [_ Hi]%elem_of_hits). simpl in Hi.
      by apply bool_decide_eq_true in Hi.
    + intros Hin. exists (Z.to_nat z). rewrite Forall_forall in Hr.
      specialize (Hr z Hin). split; [lia|]. apply elem_of_hits.
      split; [lia|]. simpl. apply bool_decide_eq_true. by rewrite Z2Nat.id by lia.
Qed.

(** ** The cells of the new model

    Counted cell by cell: [count_occ] of a cell in the cells of a model is
    the number of wrappers closed over it. *)

Local Abbreviation occ a l := (count_occ Nat.eq_dec l a).

Lemma occ_cells_insert a (cs : list module) :
  ∀ i c c', cs !! i = Some c →
  occ a (concat (cells <$> <[i:=c']> cs)) + occ a (cells c) =
  occ a (concat (cells <$> cs)) + occ a (cells c').
Proof.
  induction cs as [|c0 cs IH]; intros [|i] c c' Hc; csimpl in *; try done.
  - injection Hc as ->. rewrite !count_occ_app. lia.
  - rewrite !count_occ_app. specialize (IH i c c' Hc). lia.
Qed.

Lemma occ_cells_with_children a (m : module) cs i :
  i < length (children m) → length cs = length (children m) →
  occ a (cells (with_children m cs)) + occ a (concat (cells <$> children m)) =
  occ a (cells m) + occ a (concat (cells <$> cs)).
Proof.
  destruct m as [apply|layers|fields forward|aux layer]; csimpl;
    intros Hi Hlen; [lia|lia|lia|]. destruct cs as [|c [|??]]; csimpl in *; try done.
  rewrite !app_nil_r. destruct (Nat.eq_dec aux a); lia.
Qed.

Lemma occ_cells_replace_at a loc r :
  ∀ (m m' t : module),
  replace_at loc r m = Some m' → subtree m loc = Some t →
  occ a (cells m') + occ a (cells t) = occ a (cells m) + occ a (cells r).
Proof.
  induction loc as [|i loc IH]; intros m m' t H Ht; simpl in *.
  - simplify_eq. lia.
  - destruct (children m !! i) as [c|] eqn:Hc; [|done]. simpl in *.
    destruct (replace_at loc r c) as [c'|] eqn:Hc'; [|done]. simpl in H.
    injection H as <-. apply lookup_lt_Some in Hc as Hlt.
    pose proof (IH _ _ _ Hc' Ht).
    pose proof (occ_cells_insert a _ i c c' Hc).
    pose proof (occ_cells_with_children a m (<[i:=c']> (children m)) i Hlt
                  (length_insert _ _ _)).
    lia.
Qed.

Lemma occ_cells_replace_all a locs :
  ∀ cs nodes (m m' : module),
  separate locs = true → length cs = length locs →
  Forall2 (λ loc t, subtree m loc = Some t) locs nodes →
  replace_all locs (zip_with IntermediateWrapper cs nodes) m = Some m' →
  occ a (cells m') = occ a cs + occ a (cells m).
Proof.
  induction locs as [|loc locs IH]; intros cs nodes m m' Hsep Hlen Hn H.
  - apply Forall2_nil_inv_l in Hn as ->. destruct cs; [|done].
    simpl in H. by injection H as <-.
  - apply Forall2_cons_inv_l in Hn as (t & nodes' & Ht & Hn & ->).
    destruct cs as [|c cs]; [done|]. simpl in H, Hsep, Hlen.
    destruct (replace_at loc (IntermediateWrapper c t) m) as [m1|] eqn:H1; [|done].
    simpl in H. apply andb_true_iff in Hsep as [Hloc Hsep].
    rewrite (IH cs nodes' m1 m') ; [|done|lia| |done].
    + pose proof (occ_cells_replace_at a _ _ _ _ _ H1 Ht) as Hocc.
      simpl in *. destruct (Nat.eq_dec c a); lia.
    + apply Forall2_same_length_lookup in Hn as [Hl Hn].
      apply Forall2_same_length_lookup. split; [done|].
      intros j loc' t' Hj Hj'. rewrite <-(Hn j loc' t' Hj Hj').
      apply replace_at_other with (q := loc') in H1; [done|].
      rewrite forallb_forall in Hloc.
      apply negb_true_iff, Hloc, list_elem_of_In. by eapply list_elem_of_lookup_2.
Qed.

Lemma occ_cells_wrap_layers a tl cs layers :
  ∀ idx c (layers' : list module),
  wrap_layers tl (IntermediateWrapper <$> cs) idx c layers = inr layers' →
  occ a (concat (cells <$> layers')) =
    occ a (take (length (hits tl idx (length layers))) (drop c cs)) +
    occ a (concat (cells <$> layers)).
Proof.
  induction layers as [|m layers IH]; intros idx c layers' H; simpl in H.
  - by injection H as <-.
  - simpl length. rewrite hits_cons. destruct (contains idx tl) eqn:Hc.
    + rewrite list_lookup_fmap in H. destruct (cs !! c) as [aux|] eqn:Haux; [|done].
      simpl in H.
      destruct (wrap_layers tl _ (S idx) (S c) layers) as [e|rest] eqn:Hrec; [done|].
      injection H as <-. rewrite (drop_S _ _ _ Haux). csimpl.
      rewrite !count_occ_app, (IH _ _ _ Hrec). destruct (Nat.eq_dec aux a); lia.
    + destruct (wrap_layers tl _ (S idx) c layers) as [e|rest] eqn:Hrec; [done|].
      injection H as <-. csimpl. rewrite !count_occ_app, (IH _ _ _ Hrec). lia.
Qed.

(** The cells of the cells list that end up in wrappers of the new model:
    after [eqx.tree_at] those of the last listing of each location, and in a
    pipeline as many as positions the loop wrapped, from the first on. *)
Lemma by_kind_cells (m : module) tl nodes cs m' :
  selected_nodes m tl = inr nodes →
  length cs = len tl →
  by_kind m tl nodes (IntermediateWrapper <$> cs) = inr m' →
  ∃ used, used `sublist_of` cs ∧ cells m' ≡ₚ used ++ cells m ∧
    match m with
    | Sequential layers => used = take (length (hits tl 0 (length layers))) cs
    | _ => ∀ locs, tl = Nodes locs → used = (last_listings (zip locs cs)).*2
    end.
Proof.
  intros Hsel Hlen Hb.
  assert (∀ m0 : module, tree_at_branch m0 tl nodes (IntermediateWrapper <$> cs) = inr m' →
    selected_nodes m0 tl = inr nodes →
    ∃ used, used `sublist_of` cs ∧ cells m' ≡ₚ used ++ cells m0 ∧
      ∀ locs, tl = Nodes locs → used = (last_listings (zip locs cs)).*2) as Htree.
  { intros m0 (locs & -> & Hsep & H)%tree_at_branch_inr Hn%selected_nodes_inr.
    pose proof (Forall2_length _ _ _ Hn) as Hnlen. simpl in Hlen.
    destruct (last_listings_cells locs cs nodes) as [_ Hcs]; [done|lia|].
    exists (last_listings (zip locs cs)).*2. split_and!.
    - rewrite <-(snd_zip locs cs) at 2 by lia.
      apply fmap_sublist, last_listings_sublist.
    - apply (Permutation_count_occ Nat.eq_dec). intros a.
      rewrite count_occ_app, <-Hcs. rewrite <-uncurry_zip_with in H.
      eapply occ_cells_replace_all; [exact Hsep|by rewrite !length_fmap| |exact H].
      rewrite <-list_fmap_compose. apply Forall2_fmap, Forall_Forall2_diag.
      by apply last_listings_nodes.
    - by intros ? [= <-]. }
  destruct m as [apply|layers|fields forward|aux layer]; unfold by_kind in Hb.
  2: { apply sequential_branch_inr in Hb as (layers' & -> & H).
       exists (take (length (hits tl 0 (length layers))) cs). split_and!.
       - apply sublist_take.
       - apply (Permutation_count_occ Nat.eq_dec). intros a.
         rewrite count_occ_app. simpl.
         by rewrite (occ_cells_wrap_layers a _ _ _ _ _ _ H), drop_0.
       - done. }
  all: by apply Htree.
Qed.

(** The cells of the getter are new and pairwise distinct, and the wrappers
    the construction adds to the model are closed over cells of the getter,
    no two over the same. *)
Lemma getter_cells_used (m : module) sel (s : store X) g s' :
  intermediate_layer_getter m sel s = inr (g, s') →
  length (auxs g) = len (sel m) ∧ NoDup (auxs g) ∧
  Forall (λ aux, length s ≤ aux) (auxs g) ∧
  ∃ used, used `sublist_of` auxs g ∧ cells (model g) ≡ₚ used ++ cells m ∧
    match m with
    | Sequential layers =>
        used = take (length (hits (sel m) 0 (length layers))) (auxs g)
    | _ => ∀ locs, sel m = Nodes locs → used = (last_listings (zip locs (auxs g))).*2
    end.
Proof.
  intros (nodes & Hsel & _ & Haux & _ & Hb)%getter_with_inr.
  rewrite Haux. split_and!.
  - by rewrite length_seq.
  - apply NoDup_seq.
  - apply Forall_seq. intros; lia.
  - eapply by_kind_cells; [done| |done]. by rewrite length_seq.
Qed.

(** After [eqx.tree_at], with distinct cells: the cell of a listing is used
    exactly when its location is not listed again, and all cells are used
    when no location is listed twice. *)
Lemma last_listings_used (locs : list path) (cs : list nat) :
  length cs = length locs → NoDup cs →
  (∀ j loc aux, locs !! j = Some loc → cs !! j = Some aux →
     aux ∈ (last_listings (zip locs cs)).*2 ↔ loc ∉ drop (S j) locs) ∧
  (NoDup locs → (last_listings (zip locs cs)).*2 = cs).
Proof.
  intros Hlen Hnd. split.
  - intros j loc aux Hloc Ha. split.
    + intros ([loc' aux'] & -> & [k Hk]%list_elem_of_lookup_1)%list_elem_of_fmap.
      apply last_listings_lookup in Hk as (j' & Hloc' & Ha' & Hno); [|done].
      simpl in Ha. assert (j = j') as -> by exact (NoDup_lookup _ _ _ _ Hnd Ha Ha').
      by simplify_eq.
    + intros Hno.
      destruct (lookup_last_listings locs cs j loc aux Hlen Hloc Ha Hno) as [k Hk].
      apply list_elem_of_fmap. exists (loc, aux). split; [done|].
      by eapply list_elem_of_lookup_2.
  - intros Hl. rewrite last_listings_NoDup by by rewrite fst_zip by lia.
    apply snd_zip. lia.
Qed.

(** ** Where the wrappers sit *)

Lemma by_kind_general (m : module) tl nodes ws :
  is_Sequential m = false → by_kind m tl nodes ws = tree_at_branch m tl nodes ws.
Proof. by destruct m. Qed.

(** After [eqx.tree_at], a location holds the wrapper of its last listing
    around the node that was there, and what lies apart from all locations
    is as before. *)
Lemma general_layout (m : module) sel (s : store X) g s' locs :
  intermediate_layer_getter m sel s = inr (g, s') →
  is_Sequential m = false → sel m = Nodes locs →
  (∀ j loc, locs !! j = Some loc → loc ∉ drop (S j) locs →
     ∃ aux t, auxs g !! j = Some aux ∧ subtree m loc = Some t ∧
       subtree (model g) loc = Some (IntermediateWrapper aux t)) ∧
  (∀ q, Forall (λ loc, overlap loc q = false) locs →
     subtree (model g) q = subtree m q).
Proof.
  intros (nodes & Hsel & _ & Haux & _ & Hb)%getter_with_inr Hseq Hlocs.
  rewrite by_kind_general in Hb by done. rewrite Hlocs in *.
  change (len (Nodes locs)) with (length locs) in *.
  apply tree_at_branch_inr in Hb as (locs' & [= <-] & Hsep & H).
  apply selected_nodes_inr in Hsel.
  pose proof (Forall2_length _ _ _ Hsel) as Hnlen.
  destruct (replace_all_spec _ _ _ _ Hsep H) as (Hlen & Hat & Hother).
  simpl in Haux. split.
  - intros j loc Hloc Hno.
    destruct (Forall2_lookup_l _ _ _ _ _ Hsel Hloc) as (t & Ht & Hsub).
    assert (auxs g !! j = Some (length s + j)) as Ha.
    { rewrite Haux. apply lookup_seq. split; [done|]. by eapply lookup_lt_Some. }
    destruct (lookup_last_listings locs (zip (seq (length s) (length locs)) nodes)
                j loc (length s + j, t)) as [k Hk]; [| done | | done |].
    { rewrite length_zip_with, length_seq. lia. }
    { apply lookup_zip_with_Some. rewrite <-Haux. eauto. }
    exists (length s + j), t. split_and!; [done|done|].
    apply (Hat k); by rewrite !list_lookup_fmap, Hk.
  - intros q Hq. apply Hother. apply Forall_forall.
    intros loc ([loc' ct] & -> & Hin)%list_elem_of_fmap. simpl.
    pose proof (elem_of_sublist _ _ _ Hin (last_listings_sublist _)) as Hz.
    apply list_elem_of_lookup_1 in Hz as [j Hj].
    apply lookup_zip_with_Some in Hj as (loc0 & ct0 & [= <- <-] & Hloc & _).
    rewrite Forall_forall in Hq. apply Hq. by eapply list_elem_of_lookup_2.
Qed.

(** In a pipeline, the position the loop meets [j]-th among the selected
    ones holds the [j]-th wrapper around the layer that was there, and the
    positions not selected hold what they held. *)
Lemma sequential_layout (layers : list module) sel (s : store X) g s' :
  intermediate_layer_getter (Sequential layers) sel s = inr (g, s') →
  (∀ j i, hits (sel (Sequential layers)) 0 (length layers) !! j = Some i →
     ∃ aux l, auxs g !! j = Some aux ∧ layers !! i = Some l ∧
       subtree (model g) [i] = Some (IntermediateWrapper aux l)) ∧
  (∀ k l, layers !! k = Some l → contains k (sel (Sequential layers)) = false →
     subtree (model g) [k] = Some l).
Proof.
  intros (nodes & Hsel & _ & Haux & _ & Hb)%getter_with_inr. simpl in Hb.
  apply sequential_branch_inr in Hb as (layers' & -> & H).
  apply wrap_layers_spec in H as (Hlen & Hhit & Hkeep). split.
  - intros j i Hj. destruct (Hhit j i Hj) as (w & l & Hw & Hl & Hl').
    rewrite Nat.sub_0_r in Hl, Hl'.
    apply list_lookup_fmap_Some in Hw as (aux & -> & Ha).
    exists aux, l. split_and!; [by rewrite Haux|done|]. simpl. by rewrite Hl'.
  - intros k l Hl Hno. simpl. by rewrite (Hkeep k l).
Qed.

(** The length of the capture list. *)
Lemma capture_count (m : module) sel (s : store X) g s' x key (s1 : store X) caps :
  intermediate_layer_getter m sel s = inr (g, s') →
  captures (getter_call g x key s1).1 = Some caps →
  length caps = len (sel m).
Proof.
  intros (Haux & _)%getter_cells ->%getter_call_captures.
  by rewrite length_fmap, Haux, length_seq.
Qed.

(** C2 (capture count), at the input where the code departs from it: when
    the selector returns no target, [intermediate_layer_getter] raises
    [ValueError] instead of returning a model, whatever the model. *)
Theorem no_targets_raises (m : module) (s : store X) :
  intermediate_layer_getter m (λ _, Indices []) s = inl ValueError ∧
  intermediate_layer_getter m (λ _, Nodes []) s = inl ValueError.
Proof. done. Qed.

(** C3 (capture ordering), as the code has it.  Entry [j] of the capture
    list reads the [j]-th cell.  After [eqx.tree_at] that is the cell of the
    wrapper at the [j]-th location the selector returned, when that location
    is not listed again further on and overlaps no other location listed (a
    location listed more than once holds the wrapper of its last listing).
    In a pipeline it is the cell of the
    wrapper at the [j]-th selected position counting from the front of the
    pipeline; that is the [j]-th position the selector returned when it
    returns positions in increasing order and in range. *)
Theorem capture_order (m : module) sel (s : store X) g s' :
  intermediate_layer_getter m sel s = inr (g, s') →
  (∀ x key (s1 : store X) caps,
     captures (getter_call g x key s1).1 = Some caps →
     length caps = len (sel m) ∧
     ∀ j aux, auxs g !! j = Some aux →
       caps !! j = Some (AuxData_data (getter_call g x key s1).2 aux)) ∧
  (∀ locs j loc,
     is_Sequential m = false → sel m = Nodes locs → locs !! j = Some loc →
     loc ∉ drop (S j) locs →
     Forall (λ q, q = loc ∨ overlap q loc = false) locs →
     ∃ aux t, auxs g !! j = Some aux ∧ subtree m loc = Some t ∧
       subtree (model g) loc = Some (IntermediateWrapper aux t)) ∧
  (∀ layers j i,
     m = Sequential layers → hits (sel m) 0 (length layers) !! j = Some i →
     ∃ aux l, auxs g !! j = Some aux ∧ layers !! i = Some l ∧
       subtree (model g) [i] = Some (IntermediateWrapper aux l)) ∧
  (∀ layers idxs j idx,
     m = Sequential layers → sel m = Indices idxs →
     StronglySorted Z.lt idxs →
     Forall (λ z, 0 ≤ z < Z.of_nat (length layers))%Z idxs →
     idxs !! j = Some idx →
     ∃ aux l, auxs g !! j = Some aux ∧ layers !! Z.to_nat idx = Some l ∧
       subtree (model g) [Z.to_nat idx] = Some (IntermediateWrapper aux l)).
Proof.
  intros Hg. split_and!.
  - intros x key s1 caps Hcaps. split; [by eapply capture_count|].
    intros j aux Hj. apply getter_call_captures in Hcaps as ->.
    by rewrite list_lookup_fmap, Hj.
  - intros locs j loc Hseq Hlocs Hloc Hlast _.
    by apply (proj1 (general_layout m sel s g s' locs Hg Hseq Hlocs)).
  - intros layers j i -> Hj. by apply (proj1 (sequential_layout _ _ _ _ _ Hg)).
  - intros layers idxs j idx -> Hsel Hs Hr Hj.
    apply (proj1 (sequential_layout _ _ _ _ _ Hg)).
    rewrite Hsel, hits_increasing by done. by rewrite list_lookup_fmap, Hj.
Qed.

(** C8 (fresh pairs), as the code has it.  For [N] targets the construction
    makes [N] pairs, each a new cell holding [None] and the wrapper class
    closed over it, no two over the same cell.  The wrappers it adds to the
    model are closed over cells of these pairs.  After [eqx.tree_at] the
    pair of a listing whose location is listed again further on wraps
    nothing (a location listed more than once is not wrapped once for each
    of its listings), and all [N] pairs are used when no two of the
    locations overlap.  In a pipeline the pairs used are the first ones, as many
    as positions the loop wraps, which is [N] when the positions the
    selector returned are distinct and in range.  No two wrappers of the new
    model are closed over the same new cell, when no wrapper of the model
    passed in is. *)
Theorem fresh_pairs (m : module) sel (s : store X) g s' :
  intermediate_layer_getter m sel s = inr (g, s') →
  (∃ pairs : list (nat * (module → module)),
     make_wrappers (len (sel m)) s = (pairs, s') ∧
     length pairs = len (sel m) ∧ auxs g = pairs.*1 ∧ NoDup (pairs.*1) ∧
     ∀ j aux wrapper, pairs !! j = Some (aux, wrapper) →
       wrapper = IntermediateWrapper aux ∧ length s ≤ aux ∧ s' !! aux = Some None) ∧
  (∃ used,
     used `sublist_of` auxs g ∧ cells (model g) ≡ₚ used ++ cells m ∧
     (∀ locs, is_Sequential m = false → sel m = Nodes locs →
        (∀ j loc aux, locs !! j = Some loc → auxs g !! j = Some aux →
           loc ∈ drop (S j) locs → aux ∉ used) ∧
        (separate locs = true → used = auxs g)) ∧
     (∀ layers, m = Sequential layers →
        used `prefix_of` auxs g ∧
        length used = length (hits (sel m) 0 (length layers)) ∧
        ∀ idxs, sel m = Indices idxs → NoDup idxs →
          Forall (λ z, 0 ≤ z < Z.of_nat (length layers))%Z idxs →
          used = auxs g)) ∧
  (Forall (λ aux, aux < length s) (cells m) →
   ∀ aux, aux ∈ auxs g → count_occ Nat.eq_dec (cells (model g)) aux ≤ 1).
Proof.
  intros Hg. split_and!.
  - destruct (getter_cells _ _ _ _ _ Hg) as (Haux & Hs' & _).
    eexists. rewrite make_wrappers_spec, made_cells, length_fmap, length_seq.
    split_and!; [by rewrite Hs'|done|done|apply NoDup_seq|].
    intros j aux wrapper (a & [= -> ->] & Ha)%list_lookup_fmap_Some.
    assert (auxs g !! j = Some a) as Hj by by rewrite Haux.
    destruct (getter_cell_allocated _ _ _ _ _ _ _ Hg Hj) as (-> & Hlt & Hd).
    split_and!; [done|lia|]. rewrite Hs'.
    rewrite lookup_app_r, Nat.add_comm, Nat.add_sub by lia.
    apply lookup_replicate_2. apply lookup_seq in Ha. lia.
  - destruct (getter_cells_used _ _ _ _ _ Hg) as (Hlen & Hnd & _ & used & Hsub & Hperm & Hm).
    exists used. split_and!; [done|done| |].
    + intros locs Hseq Hsel.
      assert (used = (last_listings (zip locs (auxs g))).*2) as ->
        by (destruct m; try done; by apply Hm).
      destruct (last_listings_used locs (auxs g)) as [Hiff Hall]; [|done|].
      { by rewrite Hlen, Hsel. }
      split.
      * intros j loc aux Hloc Ha Hagain Hu. by apply (Hiff j loc aux Hloc Ha) in Hu.
      * intros Hsep. by apply Hall, separate_NoDup.
    + intros layers ->. subst used.
      pose proof (length_hits (sel (Sequential layers)) (length layers)) as Hhits.
      split_and!; [apply prefix_take|rewrite length_take; lia|].
      intros idxs Hsel Hni Hr. rewrite Hsel, length_hits_NoDup by done.
      apply take_ge. rewrite Hlen, Hsel. simpl. lia.
  - intros Hold aux Hin.
    destruct (getter_cells_used _ _ _ _ _ Hg)
      as (_ & Hnd & Hnew & used & Hsub & Hperm & _).
    rewrite (proj1 (Permutation_count_occ Nat.eq_dec _ _) Hperm), count_occ_app.
    pose proof (sublist_NoDup _ _ Hnd Hsub) as Hused.
    apply NoDup_ListNoDup in Hused.
    pose proof (proj1 (NoDup_count_occ Nat.eq_dec used) Hused aux).
    assert (count_occ Nat.eq_dec (cells m) aux = 0) as ->; [|lia].
    apply count_occ_not_In. rewrite <-list_elem_of_In. intros Hc.
    rewrite Forall_forall in Hold, Hnew. specialize (Hold aux Hc).
    specialize (Hnew aux Hin). lia.
Qed.

(** C10 (the model passed in is left as it is).  The construction changes
    no cell that existed; the new model without the wrappers over the new
    cells is the model passed in; in a pipeline the positions not selected,
    and after [eqx.tree_at] everything apart from the locations selected,
    hold what they held. *)
Theorem model_left_as_is (m : module) sel (s : store X) g s' :
  intermediate_layer_getter m sel s = inr (g, s') →
  (∀ aux, aux < length s → s' !! aux = s !! aux) ∧
  (Forall (λ aux, aux < length s) (cells m) →
     unwrap (λ aux, bool_decide (length s ≤ aux)) (model g) = m) ∧
  (∀ layers k l,
     m = Sequential layers → layers !! k = Some l → contains k (sel m) = false →
     subtree (model g) [k] = Some l) ∧
  (∀ locs q,
     is_Sequential m = false → sel m = Nodes locs →
     Forall (λ loc, overlap loc q = false) locs →
     subtree (model g) q = subtree m q).
Proof.
  intros Hg. split_and!.
  - intros aux Hlt. destruct (getter_cells _ _ _ _ _ Hg) as (_ & -> & _).
    by rewrite lookup_app_l.
  - intros Hold. rewrite (getter_model_unwrap _ m sel s g s' Hg).
    + apply unwrap_id. eapply Forall_impl; [exact Hold|]. simpl.
      intros aux Hlt. apply bool_decide_eq_false. lia.
    + destruct (getter_cells_used _ _ _ _ _ Hg) as (_ & _ & Hnew & _).
      eapply Forall_impl; [exact Hnew|]. simpl.
      intros aux Hle. by apply bool_decide_eq_true.
  - intros layers k l -> Hl Hno. by apply (proj2 (sequential_layout _ _ _ _ _ Hg)).
  - intros locs q Hseq Hlocs Hq.
    by apply (proj2 (general_layout m sel s g s' locs Hg Hseq Hlocs)).
Qed.

(** ** A pipeline through either branch *)

Lemma replace_all_total locs :
  ∀ rs (m : module),
  separate locs = true → length rs = length locs →
  Forall (λ loc, is_Some (subtree m loc)) locs →
  is_Some (replace_all locs rs m).
Proof.
  induction locs as [|loc locs IH]; intros [|r rs] m Hsep Hlen Hall;
    simpl in *; try done.
  apply Forall_cons in Hall as [Hloc Hall].
  apply andb_true_iff in Hsep as [Hapart Hsep].
  destruct (proj2 (replace_at_is_Some loc r m) Hloc) as [m1 H1].
  rewrite H1. simpl. apply IH; [done|lia|].
  apply Forall_forall. intros loc' Hin. rewrite Forall_forall in Hall.
  rewrite (replace_at_other _ _ _ _ loc' H1); [by apply Hall|].
  rewrite forallb_forall in Hapart.
  by apply negb_true_iff, Hapart, list_elem_of_In.
Qed.

Lemma replace_at_Sequential loc r (layers : list module) m' :
  loc ≠ [] → replace_at loc r (Sequential layers) = Some m' →
  ∃ layers', m' = Sequential layers' ∧ length layers' = length layers.
Proof.
  destruct loc as [|i loc]; [done|]. intros _ H. simpl in H.
  destruct (layers !! i) as [c|]; [|done]. simpl in H.
  destruct (replace_at loc r c) as [c'|]; [|done]. simpl in H.
  injection H as <-. eexists. split; [done|]. apply length_insert.
Qed.

Lemma replace_all_Sequential locs :
  ∀ rs (layers : list module) m',
  Forall (λ loc, loc ≠ []) locs →
  replace_all locs rs (Sequential layers) = Some m' →
  ∃ layers', m' = Sequential layers' ∧ length layers' = length layers.
Proof.
  induction locs as [|loc locs IH]; intros [|r rs] layers m' Hne H;
    simpl in *; try done.
  - injection H as <-. eauto.
  - apply Forall_cons in Hne as [Hloc Hne].
    destruct (replace_at loc r (Sequential layers)) as [m1|] eqn:H1; [|done].
    apply replace_at_Sequential in H1 as (layers1 & -> & Hlen1); [|done].
    simpl in H. destruct (IH _ _ _ Hne H) as (layers' & -> & Hlen').
    exists layers'. split; [done|lia].
Qed.

Lemma subtree_position (layers : list module) k :
  subtree (Sequential layers) [k] = layers !! k.
Proof. simpl. by destruct (layers !! k). Qed.

(** The locations of positions in a pipeline: [lambda m: [m.layers[i] for i
    in idxs]]. *)
Lemma separate_positions idxs :
  StronglySorted Z.lt idxs → Forall (λ z, 0 ≤ z)%Z idxs →
  separate ((λ z, [Z.to_nat z]) <$> idxs) = true.
Proof.
  induction 1 as [|z idxs Hs IH Hz]; intros Hpos; [done|].
  apply Forall_cons in Hpos as [Hz0 Hpos]. csimpl.
  rewrite IH by done. rewrite andb_true_r. apply forallb_forall.
  intros loc (z' & -> & Hin)%list_elem_of_In%list_elem_of_fmap. simpl.
  rewrite Forall_forall in Hz, Hpos. specialize (Hz z' Hin).
  specialize (Hpos z' Hin). rewrite andb_true_r.
  apply negb_true_iff, bool_decide_eq_false. lia.
Qed.

(** For another model than a pipeline, separate locations that exist, and
    at least one of them, the construction succeeds. *)
Lemma general_getter_total (m : module) sel (s : store X) locs :
  is_Sequential m = false → sel m = Nodes locs → locs ≠ [] →
  separate locs = true →
  Forall (λ loc, is_Some (subtree m loc)) locs →
  ∃ g s', intermediate_layer_getter m sel s = inr (g, s').
Proof.
  intros Hseq Hsel Hne Hsep Hthere.
  destruct (mapM_is_Some_2 _ _ Hthere) as [nodes Hnodes].
  pose proof (Forall2_length _ _ _ (mapM_Some_1 _ _ _ Hnodes)) as Hnlen.
  destruct (replace_all_total locs
              (zip_with (λ wrapper target_layer, wrapper target_layer)
                 (IntermediateWrapper <$> seq (length s) (length locs)) nodes)
              m) as [m' Hrep]; [done| |done|].
  { rewrite length_zip_with, length_fmap, length_seq. lia. }
  do 2 eexists. apply (getter_with_intro by_kind m sel s nodes m').
  - rewrite Hsel. simpl. by rewrite Hnodes.
  - rewrite Hsel. simpl. by destruct locs.
  - rewrite by_kind_general, Hsel by done. simpl.
    rewrite tree_at_separate, Hrep; [done|done|].
    rewrite length_zip_with, length_fmap, length_seq. lia.
Qed.

(** C6 (flat and general branch agree), as the code has it: for a pipeline
    and positions the selector returns in increasing order and in range,
    the branch for pipelines builds the very getter the general branch
    builds from the locations of these positions; so the two return the
    same output and the same captures on every input and key. *)
Theorem flat_matches_general (layers : list module) idxs (s : store X) :
  StronglySorted Z.lt idxs →
  Forall (λ z, 0 ≤ z < Z.of_nat (length layers))%Z idxs →
  intermediate_layer_getter (Sequential layers) (λ _, Indices idxs) s =
    general_getter (Sequential layers)
      (λ _, Nodes ((λ z, [Z.to_nat z]) <$> idxs)) s ∧
  (idxs ≠ [] →
   ∃ g s', intermediate_layer_getter (Sequential layers) (λ _, Indices idxs) s
             = inr (g, s')) ∧
  (∀ g1 s1 g2 s2,
     intermediate_layer_getter (Sequential layers) (λ _, Indices idxs) s
       = inr (g1, s1) →
     general_getter (Sequential layers)
       (λ _, Nodes ((λ z, [Z.to_nat z]) <$> idxs)) s = inr (g2, s2) →
     ∀ x key (s0 : store X), getter_call g1 x key s0 = getter_call g2 x key s0).
Proof.
  intros Hs Hr.
  destruct (decide (idxs = [])) as [->|Hne].
  { split_and!; [done|done|]. by intros g1 s1 g2 s2 H1. }
  set (locs := (λ z, [Z.to_nat z]) <$> idxs).
  set (cs := seq (length s) (length idxs)).
  set (ws := IntermediateWrapper (X:=X) (K:=K) (E:=E) <$> cs).
  assert (length idxs ≠ 0) as HN by by destruct idxs.
  assert (hits (Indices idxs) 0 (length layers) = Z.to_nat <$> idxs) as Hhits
    by by apply hits_increasing.
  (* the branch for pipelines *)
  destruct (wrap_layers_total (Indices idxs) ws layers 0 0) as [layers' Hflat].
  { unfold ws, cs. rewrite Hhits, !length_fmap, length_seq. simpl. lia. }
  assert (intermediate_layer_getter (Sequential layers) (λ _, Indices idxs) s =
          inr (Getter (Sequential layers') cs, s ++ replicate (length idxs) None)) as Hf.
  { apply (getter_with_intro by_kind (Sequential layers) (λ _, Indices idxs) s []
             (Sequential layers')); [done|done|].
    simpl. unfold sequential_branch. fold cs ws. by rewrite Hflat. }
  (* the general branch *)
  assert (Forall (λ loc, is_Some (subtree (Sequential layers) loc)) locs) as Hthere.
  { apply Forall_fmap, Forall_forall. intros z Hz. simpl.
    rewrite Forall_forall in Hr. specialize (Hr z Hz).
    destruct (lookup_lt_is_Some_2 layers (Z.to_nat z)) as [l ->]; [lia|]. by eexists. }
  destruct (mapM_is_Some_2 _ _ Hthere) as [nodes Hnodes].
  assert (separate locs = true) as Hsep.
  { apply separate_positions; [done|]. eapply Forall_impl; [exact Hr|]. simpl. lia. }
  pose proof (mapM_Some_1 _ _ _ Hnodes) as Hn.
  pose proof (Forall2_length _ _ _ Hn) as Hnlen.
  assert (length locs = length idxs) as Hllen by apply length_fmap.
  destruct (replace_all_total locs
              (zip_with (λ wrapper target_layer, wrapper target_layer) ws nodes)
              (Sequential layers)) as [m2 Hrep]; [done| |done|].
  { rewrite length_zip_with. unfold ws, cs. rewrite length_fmap, length_seq. lia. }
  assert (Forall (λ loc : path, loc ≠ []) locs) as Hdeep
    by by apply Forall_fmap, Forall_forall.
  destruct (replace_all_Sequential _ _ _ _ Hdeep Hrep) as (layers2 & -> & Hlen2).
  assert (general_getter (Sequential layers) (λ _, Nodes locs) s =
          inr (Getter (Sequential layers2) cs, s ++ replicate (length idxs) None)) as Hg.
  { unfold cs. rewrite <-Hllen.
    apply (getter_with_intro tree_at_branch (Sequential layers) (λ _, Nodes locs) s
             nodes (Sequential layers2)).
    - simpl. by rewrite Hnodes.
    - simpl. lia.
    - simpl. rewrite Hllen. fold cs ws. rewrite tree_at_separate, Hrep; [done|done|].
      rewrite length_zip_with. unfold ws, cs. rewrite length_fmap, length_seq. lia. }
  assert (layers' = layers2) as <-.
  { destruct (wrap_layers_spec _ _ _ _ _ _ Hflat) as (Hlen' & Hhit & Hkeep).
    destruct (replace_all_spec _ _ _ _ Hsep Hrep) as (Hlenrs & Hat & Hother).
    apply list_eq. intros k. destruct (layers !! k) as [l|] eqn:Hl.
    - destruct (contains k (Indices idxs)) eqn:Hc.
      + assert (k ∈ hits (Indices idxs) 0 (length layers)) as [j Hj]%list_elem_of_lookup_1.
        { apply elem_of_hits. apply lookup_lt_Some in Hl. split; [lia|done]. }
        destruct (Hhit j k Hj) as (w & l0 & Hw & Hl0 & Hl').
        rewrite Nat.sub_0_r in Hl0, Hl'. simpl in Hw. simplify_eq.
        rewrite Hhits in Hj. apply list_lookup_fmap_Some in Hj as (z & -> & Hz).
        assert (locs !! j = Some [Z.to_nat z]) as Hloc.
        { unfold locs. by rewrite list_lookup_fmap, Hz. }
        destruct (Forall2_lookup_l _ _ _ _ _ Hn Hloc) as (t & Ht & Hsub).
        rewrite subtree_position, Hl in Hsub. injection Hsub as <-.
        specialize (Hat j _ (w l) Hloc).
        rewrite subtree_position in Hat. rewrite Hl', Hat; [done|].
        apply lookup_zip_with_Some. eauto.
      + rewrite (Hkeep k l) by done.
        rewrite <-!subtree_position, Hother, subtree_position; [done|].
        apply Forall_fmap, Forall_forall. intros z Hz. simpl.
        rewrite andb_true_r. apply bool_decide_eq_false. intros <-.
        simpl in Hc. apply bool_decide_eq_false in Hc. apply Hc.
        rewrite Forall_forall in Hr. specialize (Hr z Hz).
        by rewrite Z2Nat.id by lia.
    - apply lookup_ge_None in Hl.
      rewrite (proj2 (lookup_ge_None layers' k)), (proj2 (lookup_ge_None layers2 k)) by lia.
      done. }
  rewrite Hf, Hg. split_and!; [done|eauto|].
  intros g1 s1 g2 s2 [= <- <-] [= <- <-]. done.
Qed.

(** ** Further properties of the construction and of the calls *)

Lemma forward_pass_length (m : module) x key (s : store X) :
  length (forward_pass m x key s).2 = length s.
Proof. by rewrite forward_pass_replay, length_replay. Qed.

(** A forward pass leaves the cells of no wrapper of the model as they were. *)
Lemma forward_pass_keeps (m : module) x key (s : store X) aux :
  aux ∉ cells m →
  AuxData_data (forward_pass m x key s).2 aux = AuxData_data s aux.
Proof.
  intros Hno. rewrite forward_pass_replay. apply data_replay_other.
  intros ((a & o) & -> & Hin)%list_elem_of_fmap. apply Hno.
  pose proof (updates_cells m x key) as Hall.
  rewrite Forall_forall in Hall. by apply (Hall (a, o)).
Qed.

Lemma no_update_outside_cells (m : module) x key aux :
  aux ∉ cells m → aux ∉ (updates m x key).*1.
Proof.
  intros Hno ((a & o) & -> & Hin)%list_elem_of_fmap. apply Hno.
  pose proof (updates_cells m x key) as Hall.
  rewrite Forall_forall in Hall. by apply (Hall (a, o)).
Qed.

(** The loop keeps a stretch of layers none of whose positions is selected. *)
Lemma wrap_layers_none tl (ws : list (module → module)) layers :
  ∀ idx c,
  (∀ i, idx ≤ i < idx + length layers → contains i tl = false) →
  wrap_layers tl ws idx c layers = inr layers.
Proof.
  induction layers as [|m layers IH]; intros idx c Hno; simpl; [done|].
  rewrite (Hno idx) by (simpl; lia).
  rewrite (IH (S idx) c); [done|]. intros i Hi. apply Hno. simpl. lia.
Qed.

(** X1.  For a pipeline and a selector that returns at least one position,
    whatever the positions (repeated, negative, past the end), the
    construction returns a getter: [wrappers[updated_count]] is never past
    the end.  The getter has one cell for each position returned and a
    pipeline of the same length. *)
Theorem pipeline_construction_succeeds (layers : list module) idxs (s : store X) :
  idxs ≠ [] →
  ∃ g s',
    intermediate_layer_getter (Sequential layers) (λ _, Indices idxs) s = inr (g, s') ∧
    auxs g = seq (length s) (length idxs) ∧
    ∃ layers', model g = Sequential layers' ∧ length layers' = length layers.
Proof.
  intros Hne.
  destruct (sequential_getter_total layers (λ _, Indices idxs) s [])
    as (g & s' & Hg); [done|by destruct idxs|].
  exists g, s'. split; [done|].
  destruct (getter_with_inr _ _ _ _ _ _ Hg) as (nodes & _ & _ & Haux & _ & Hb).
  split; [done|]. simpl in Hb.
  apply sequential_branch_inr in Hb as (layers' & Hm & H).
  exists layers'. split; [done|]. by apply wrap_layers_spec in H as (? & _).
Qed.

(** X2.  Positions that are negative or past the end of the pipeline select
    nothing and raise nothing: when the selector returns only such
    positions, the getter holds the pipeline passed in, unchanged, and one
    cell for each position returned.  In particular -1 is not the last
    layer. *)
Theorem positions_out_of_range_ignored (layers : list module) idxs (s : store X) :
  idxs ≠ [] →
  Forall (λ z, z < 0 ∨ Z.of_nat (length layers) ≤ z)%Z idxs →
  intermediate_layer_getter (Sequential layers) (λ _, Indices idxs) s =
    inr (Getter (Sequential layers) (seq (length s) (length idxs)),
         s ++ replicate (length idxs) None).
Proof.
  intros Hne Hout.
  apply (getter_with_intro by_kind (Sequential layers) (λ _, Indices idxs) s []
           (Sequential layers)); [done|by destruct idxs|].
  simpl. unfold sequential_branch. rewrite wrap_layers_none; [done|].
  intros i Hi. simpl. apply bool_decide_eq_false. intros Hin.
  rewrite Forall_forall in Hout. specialize (Hout _ Hin). simpl in *. lia.
Qed.

(** X3.  In a pipeline, the cells past the number of positions the loop
    wraps belong to no wrapper: their entries of the capture list are [None]
    in every call, however many calls came before.  (Positions returned more
    than once or out of range leave such cells, at the end of the list.) *)
Theorem surplus_captures_stay_None (layers : list module) sel (s : store X) g s' :
  intermediate_layer_getter (Sequential layers) sel s = inr (g, s') →
  Forall (λ aux, aux < length s) (cells (Sequential layers)) →
  ∀ calls x key j caps,
    length (hits (sel (Sequential layers)) 0 (length layers)) ≤ j →
    j < len (sel (Sequential layers)) →
    captures (getter_call g x key (after_calls g calls s')).1 = Some caps →
    caps !! j = Some None.
Proof.
  intros Hg Hold calls x key j caps Hj HjN Hcaps.
  destruct (getter_cells _ _ _ _ _ Hg) as (Haux & _ & _).
  assert (auxs g !! j = Some (length s + j)) as Hcell.
  { rewrite Haux. by apply lookup_seq. }
  assert (length s + j ∉ cells (model g)) as Hfree.
  { destruct (getter_cells_used _ _ _ _ _ Hg)
      as (_ & _ & _ & used & _ & Hperm & ->).
    rewrite Hperm, elem_of_app. intros [Hin|Hin].
    - apply list_elem_of_lookup_1 in Hin as [k Hk].
      apply lookup_take_Some in Hk as [Hk' Hklt].
      rewrite Haux in Hk'. apply lookup_seq in Hk' as [? _]. lia.
    - rewrite Forall_forall in Hold. specialize (Hold _ Hin). lia. }
  apply getter_call_captures in Hcaps as ->.
  rewrite list_lookup_fmap, Hcell. simpl. f_equal.
  rewrite getter_call_keeps by by apply no_update_outside_cells.
  rewrite after_calls_keeps.
  - by destruct (getter_cell_allocated _ _ _ _ _ _ _ Hg Hcell) as (_ & _ & ?).
  - apply Forall_forall. intros c _. by apply no_update_outside_cells.
Qed.

(** X4.  A capture outlives the call that made it: when the wrapper of a
    target has run its layer in one call, whether that call returns or
    raises, and does not run it in the next, the entry of that target in the
    next call's capture list is still what the layer returned before. *)
Theorem stale_capture_persists (m : module) sel (s : store X) g s' :
  intermediate_layer_getter m sel s = inr (g, s') →
  ∀ x1 key1 x2 key2 (s1 : store X) j aux log1 out log2 caps,
    length s' ≤ length s1 →
    auxs g !! j = Some aux →
    updates (model g) x1 key1 = log1 ++ (aux, out) :: log2 →
    aux ∉ log2.*1 →
    aux ∉ (updates (model g) x2 key2).*1 →
    captures (getter_call g x2 key2 (getter_call g x1 key1 s1).2).1 = Some caps →
    caps !! j = Some (Some out).
Proof.
  intros Hg x1 key1 x2 key2 s1 j aux log1 out log2 caps Hlen Hj Hlog Hlast Hno Hcaps.
  apply getter_call_captures in Hcaps as ->.
  rewrite list_lookup_fmap, Hj. simpl. f_equal.
  rewrite getter_call_keeps by done. rewrite getter_call_store, Hlog.
  apply data_replay_last; [|done].
  destruct (getter_cell_allocated _ _ _ _ _ _ _ Hg Hj) as (_ & ? & _). lia.
Qed.

(** The last update of a cell that a log names. *)
Lemma last_update_split aux (log : list (nat * X)) :
  aux ∈ log.*1 →
  ∃ log1 out log2, log = log1 ++ (aux, out) :: log2 ∧ (aux ∉ log2.*1).
Proof.
  induction log as [|[a o] log IH]; [by intros ?%elem_of_nil|].
  rewrite fmap_cons. intros Hin.
  destruct (decide (aux ∈ log.*1)) as [Hlater|Hnot].
  - destruct (IH Hlater) as (log1 & out & log2 & -> & Hlast).
    by exists ((a, o) :: log1), out, log2.
  - apply elem_of_cons in Hin as [->|?]; [|done]. by exists [], o, log.
Qed.

(** X5.  When the wrapper of every target runs its layer in a call, what
    the getter returns does not depend on the store the call starts from:
    nothing of earlier calls shows in the capture list. *)
Theorem captures_fresh_when_all_run (m : module) sel (s : store X) g s' :
  intermediate_layer_getter m sel s = inr (g, s') →
  ∀ x key (s1 s2 : store X),
    length s' ≤ length s1 → length s' ≤ length s2 →
    Forall (λ aux, aux ∈ (updates (model g) x key).*1) (auxs g) →
    (getter_call g x key s1).1 = (getter_call g x key s2).1.
Proof.
  intros Hg x key s1 s2 Hl1 Hl2 Hall.
  pose proof (forward_pass_replay (model g) x key s1) as Hs1.
  pose proof (forward_pass_replay (model g) x key s2) as Hs2.
  rewrite !getter_call_eq.
  pose proof (call_outcome AuxData_update AuxData_update (model g) x key s1 s2) as Ho.
  rewrite <-!forward_pass_eq in Ho.
  destruct (forward_pass (model g) x key s1) as [[e1|out1] t1],
    (forward_pass (model g) x key s2) as [[e2|out2] t2];
    simpl in *; simplify_eq; [done|].
  do 2 f_equal. apply list_eq. intros j. rewrite !list_lookup_fmap.
  destruct (auxs g !! j) as [aux|] eqn:Hj; [simpl|done]. f_equal.
  rewrite Forall_forall in Hall.
  destruct (last_update_split aux _ (Hall aux ltac:(by eapply list_elem_of_lookup_2)))
    as (log1 & out & log2 & -> & Hlast).
  destruct (getter_cell_allocated _ _ _ _ _ _ _ Hg Hj) as (_ & ? & _).
  rewrite !data_replay_last by (done || lia). done.
Qed.

(** ** Wrappers that were there before *)

(** The updates of a model without some of its wrappers are those of the
    model, less the updates of the wrappers that are gone. *)
Lemma updates_unwrap (p : nat → bool) (m : module) x key :
  updates (unwrap p m) x key = filter (λ u, p u.1 = false) (updates m x key).
Proof.
  destruct (call_unwrap_in_step
    (λ (log1 log2 : list (nat * X)), log1 = filter (λ u, p u.1 = false) log2)
    record record p) with (m := m) (x := x) (key := key)
    (s1 := @nil (nat * X)) (s2 := @nil (nat * X)) as [_ H]; [| |done|done].
  - intros aux out log1 log2 Hp ->. unfold record.
    rewrite filter_app, filter_cons_True by done. done.
  - intros aux out log1 log2 Hp ->. unfold record.
    rewrite filter_app, filter_cons_False by (simpl; congruence).
    by rewrite filter_nil, app_nil_r.
Qed.

Lemma data_replay_frame a o aux (log : list (nat * X)) :
  ∀ s : store X, a ≠ aux →
  AuxData_data (replay (AuxData_update a o s) log) aux = AuxData_data (replay s log) aux.
Proof.
  induction log as [|[b o'] log IH]; intros s Hne.
  - by apply data_update_ne.
  - change (replay ?t ((b, o') :: log)) with (replay (AuxData_update b o' t) log).
    destruct (decide (b = a)) as [->|Hba].
    + unfold AuxData_update. by rewrite list_insert_insert_eq.
    + rewrite <-(IH (AuxData_update b o' s)) by done.
      unfold AuxData_update. by rewrite list_insert_insert_ne.
Qed.

(** What a cell holds after the updates of a log is decided by the updates
    of that cell. *)
Lemma data_replay_filter (Q : nat * X → Prop) {Qdec : ∀ u, Decision (Q u)} aux
    (log : list (nat * X)) :
  ∀ s : store X, (∀ u, u.1 = aux → Q u) →
  AuxData_data (replay s (filter Q log)) aux = AuxData_data (replay s log) aux.
Proof.
  induction log as [|[a o] log IH]; intros s HQ; [done|].
  destruct (decide (Q (a, o))) as [Ha|Ha].
  - rewrite filter_cons_True by done.
    change (replay s ((a, o) :: ?l)) with (replay (AuxData_update a o s) l).
    by apply IH.
  - rewrite filter_cons_False by done.
    change (replay s ((a, o) :: log)) with (replay (AuxData_update a o s) log).
    rewrite data_replay_frame by (intros <-; by apply Ha, HQ). by apply IH.
Qed.

(** X6.  The construction does not disturb the wrappers the model already
    had (those of an earlier [intermediate_layer_getter]): in every call the
    new model performs the same updates of the cells that existed, in the
    same order, as the model passed in, and leaves these cells holding the
    same. *)
Theorem earlier_wrappers_undisturbed (m : module) sel (s : store X) g s' :
  intermediate_layer_getter m sel s = inr (g, s') →
  Forall (λ aux, aux < length s) (cells m) →
  ∀ x key,
    filter (λ u, u.1 < length s) (updates (model g) x key) = updates m x key ∧
    ∀ (s0 : store X) aux, aux < length s →
      AuxData_data (forward_pass (model g) x key s0).2 aux =
      AuxData_data (forward_pass m x key s0).2 aux.
Proof.
  intros Hg Hold x key.
  assert (filter (λ u, u.1 < length s) (updates (model g) x key) = updates m x key) as Hf.
  { set (p := λ aux, bool_decide (length s ≤ aux)).
    assert (unwrap p (model g) = m) as <-.
    { rewrite (getter_model_unwrap p m sel s g s' Hg).
      - apply unwrap_id. eapply Forall_impl; [exact Hold|]. simpl.
        intros aux Hlt. apply bool_decide_eq_false. lia.
      - destruct (getter_cells_used _ _ _ _ _ Hg) as (_ & _ & Hnew & _).
        eapply Forall_impl; [exact Hnew|]. simpl.
        intros aux Hle. by apply bool_decide_eq_true. }
    rewrite updates_unwrap. apply list_filter_iff. intros [a o]. simpl.
    unfold p. rewrite bool_decide_eq_false. lia. }
  split; [done|]. intros s0 aux Hlt.
  rewrite !forward_pass_replay, <-Hf. symmetry.
  apply data_replay_filter. by intros u ->.
Qed.

(** ** What a pipeline captures *)

(** The cells of the layers the loop builds: those of the layers it was
    given, and cells of wrappers it had not used yet. *)
Lemma wrap_layers_cells tl cs layers :
  ∀ idx c (layers' : list module) a,
  wrap_layers tl (IntermediateWrapper <$> cs) idx c layers = inr layers' →
  a ∈ concat (cells <$> layers') →
  a ∈ concat (cells <$> layers) ∨ ∃ k, c ≤ k ∧ cs !! k = Some a.
Proof.
  induction layers as [|m layers IH]; intros idx c layers' a H Hin; simpl in H.
  - injection H as <-. by left.
  - destruct (contains idx tl).
    + rewrite list_lookup_fmap in H. destruct (cs !! c) as [aux|] eqn:Haux; [|done].
      simpl in H.
      destruct (wrap_layers tl _ (S idx) (S c) layers) as [e|rest] eqn:Hrec; [done|].
      injection H as <-. csimpl in *.
      apply elem_of_cons in Hin as [->|Hin]; [right; eauto|].
      apply elem_of_app in Hin as [Hin|Hin]; [left; apply elem_of_app; by left|].
      destruct (IH _ _ _ _ Hrec Hin) as [?|(k & ? & ?)].
      * left. apply elem_of_app. by right.
      * right. exists k. split; [lia|done].
    + destruct (wrap_layers tl _ (S idx) c layers) as [e|rest] eqn:Hrec; [done|].
      injection H as <-. csimpl in *.
      apply elem_of_app in Hin as [Hin|Hin]; [left; apply elem_of_app; by left|].
      destruct (IH _ _ _ _ Hrec Hin) as [?|?]; [|by right].
      left. apply elem_of_app. by right.
Qed.

(** The rest of a pipeline leaves the cells of none of its wrappers alone,
    and changes the length of no store. *)
Lemma call_layers_keeps key n (layers : list module) aux :
  ∀ idx x (s : store X),
  aux ∉ concat (cells <$> layers) →
  AuxData_data (call_layers layer_key key n idx (call AuxData_update <$> layers) x s).2 aux
    = AuxData_data s aux.
Proof.
  induction layers as [|m layers IH]; intros idx x s Hno; csimpl in *; [done|].
  apply not_elem_of_app in Hno as [Hm Hrest].
  pose proof (forward_pass_keeps m x (layer_key key n idx) s aux Hm) as Hk.
  rewrite forward_pass_eq in Hk.
  destruct (call AuxData_update m x (layer_key key n idx) s) as [[e|o] s1];
    simpl in *; [done|].
  by rewrite IH.
Qed.

(** In the pipeline the loop builds, after a call that returns, the cell of
    the wrapper at a selected position holds what the layers of the pipeline
    passed in return up to and including that position. *)
Lemma wrapped_pipeline_captures key n tl cs :
  NoDup cs →
  ∀ (layers : list module) idx c layers' x (s : store X) out s_end,
  Forall (λ a, a ∉ concat (cells <$> layers)) cs →
  Forall (λ a, a < length s) cs →
  wrap_layers tl (IntermediateWrapper <$> cs) idx c layers = inr layers' →
  call_layers layer_key key n idx (call AuxData_update <$> layers') x s
    = (inr out, s_end) →
  ∀ j i, hits tl idx (length layers) !! j = Some i →
    ∃ a y, cs !! (c + j) = Some a ∧ AuxData_data s_end a = Some y ∧
      ∀ s0 : store X,
        (call_layers layer_key key n idx
           (call AuxData_update <$> take (S (i - idx)) layers) x s0).1 = inr y.
Proof.
  intros Hnd. induction layers as [|m layers IH];
    intros idx c layers' x s out s_end Hold Halloc H Hrun j i Hj; [done|].
  assert (Forall (λ a, a ∉ concat (cells <$> layers)) cs) as Hold'.
  { eapply Forall_impl; [exact Hold|]. csimpl. intros a Ha Hin.
    apply Ha, elem_of_app. by right. }
  simpl in H. simpl length in Hj. rewrite hits_cons in Hj.
  (* what the first layer does, wrapped or not *)
  assert (∀ s0, (call AuxData_update m x (layer_key key n idx) s0).1 =
                (call AuxData_update m x (layer_key key n idx) s).1) as Hsame
    by (intros; apply call_outcome).
  pose proof (forward_pass_length m x (layer_key key n idx) s) as Hlen1.
  rewrite forward_pass_eq in Hlen1.
  destruct (contains idx tl) eqn:Hc.
  - rewrite list_lookup_fmap in H. destruct (cs !! c) as [a|] eqn:Ha; [|done].
    simpl in H.
    destruct (wrap_layers tl _ (S idx) (S c) layers) as [e|rest] eqn:Hrec; [done|].
    injection H as <-. csimpl in Hrun.
    destruct (call AuxData_update m x (layer_key key n idx) s) as [[e|o1] s1] eqn:Hm;
      [done|]. simpl in Hlen1.
    assert (Forall (λ a', a' < length (AuxData_update a o1 s1)) cs) as Halloc1.
    { unfold AuxData_update. rewrite length_insert, Hlen1. done. }
    destruct j as [|j]; simpl in Hj.
    + injection Hj as <-. exists a, o1. rewrite Nat.add_0_r, Nat.sub_diag.
      split_and!; [done| |].
      * assert (s_end = (call_layers layer_key key n (S idx)
                           (call AuxData_update <$> rest) o1
                           (AuxData_update a o1 s1)).2) as -> by by rewrite Hrun.
        rewrite call_layers_keeps.
        -- apply data_update_eq. rewrite Forall_forall in Halloc.
           rewrite Hlen1. by eapply Halloc, list_elem_of_lookup_2.
        -- intros Hin. destruct (wrap_layers_cells _ _ _ _ _ _ _ Hrec Hin)
             as [Hin'|(k & Hk & Hk')].
           ++ rewrite Forall_forall in Hold'.
              by eapply Hold'; [eapply list_elem_of_lookup_2|].
           ++ pose proof (NoDup_lookup _ _ _ _ Hnd Ha Hk'). lia.
      * intros s0. csimpl. specialize (Hsame s0). simpl in Hsame.
        by destruct (call AuxData_update m x (layer_key key n idx) s0)
          as [[e|o] s0']; simpl in *; simplify_eq.
    + destruct (IH (S idx) (S c) rest o1 _ out s_end Hold' Halloc1 Hrec Hrun j i Hj)
        as (a' & y & Ha' & Hy & Hpre).
      assert (S idx ≤ i).
      { apply list_elem_of_lookup_2, elem_of_hits in Hj. lia. }
      exists a', y. split_and!; [by replace (c + S j) with (S c + j) by lia|done|].
      intros s0. replace (S (i - idx)) with (S (S (i - S idx))) by lia.
      csimpl. specialize (Hsame s0). simpl in Hsame.
      destruct (call AuxData_update m x (layer_key key n idx) s0)
        as [[e|o] s0']; simpl in *; simplify_eq. apply Hpre.
  - destruct (wrap_layers tl _ (S idx) c layers) as [e|rest] eqn:Hrec; [done|].
    injection H as <-. csimpl in Hrun.
    destruct (call AuxData_update m x (layer_key key n idx) s) as [[e|o1] s1] eqn:Hm;
      [done|]. simpl in Hlen1.
    assert (Forall (λ a', a' < length s1) cs) as Halloc1 by by rewrite Hlen1.
    destruct (IH (S idx) c rest o1 _ out s_end Hold' Halloc1 Hrec Hrun j i Hj)
      as (a' & y & Ha' & Hy & Hpre).
    assert (S idx ≤ i).
    { apply list_elem_of_lookup_2, elem_of_hits in Hj. lia. }
    exists a', y. split_and!; [done|done|].
    intros s0. replace (S (i - idx)) with (S (S (i - S idx))) by lia.
    csimpl. specialize (Hsame s0). simpl in Hsame.
    destruct (call AuxData_update m x (layer_key key n idx) s0)
      as [[e|o] s0']; simpl in *; simplify_eq. apply Hpre.
Qed.

(** X7.  The captures of a pipeline are its intermediate activations: when
    a call of the getter returns, the entry of the position the loop met
    [j]-th is what the pipeline passed in hands on after the layer at that
    position, on the same input and key.  For positions returned in
    increasing order and in range, entry [j] belongs to the [j]-th position
    returned. *)
Theorem pipeline_captures_are_activations (layers : list module) sel (s : store X) g s' :
  intermediate_layer_getter (Sequential layers) sel s = inr (g, s') →
  Forall (λ aux, aux < length s) (cells (Sequential layers)) →
  ∀ x key (s1 : store X) caps,
    length s' ≤ length s1 →
    captures (getter_call g x key s1).1 = Some caps →
    (∀ j i, hits (sel (Sequential layers)) 0 (length layers) !! j = Some i →
       ∃ y, reaches layers key (S i) x = inr y ∧ caps !! j = Some (Some y)) ∧
    (∀ idxs j idx,
       sel (Sequential layers) = Indices idxs →
       StronglySorted Z.lt idxs →
       Forall (λ z, 0 ≤ z < Z.of_nat (length layers))%Z idxs →
       idxs !! j = Some idx →
       ∃ y, reaches layers key (S (Z.to_nat idx)) x = inr y ∧
            caps !! j = Some (Some y)).
Proof.
  intros Hg Hold x key s1 caps Hlen Hcaps.
  assert (∀ j i, hits (sel (Sequential layers)) 0 (length layers) !! j = Some i →
            ∃ y, reaches layers key (S i) x = inr y ∧ caps !! j = Some (Some y)) as Hmain.
  { intros j i Hj.
    destruct (getter_cells _ _ _ _ _ Hg) as (Haux & Hs' & _).
    destruct (getter_with_inr _ _ _ _ _ _ Hg) as (nodes & _ & _ & _ & _ & Hb).
    simpl in Hb. apply sequential_branch_inr in Hb as (layers' & Hm & H).
    pose proof (wrap_layers_spec _ _ _ _ _ _ H) as (Hlen' & _ & _).
    rewrite getter_call_eq in Hcaps.
    destruct (forward_pass (model g) x key s1) as [[e|out] s2] eqn:Hrun; [done|].
    simpl in Hcaps. injection Hcaps as <-.
    rewrite Hm, forward_pass_eq in Hrun. simpl in Hrun. rewrite Hlen' in Hrun.
    destruct (wrapped_pipeline_captures key (length layers)
                (sel (Sequential layers)) (seq (length s) (len (sel (Sequential layers))))
                (NoDup_seq _ _) layers 0 0 layers' x s1 out s2) with (j := j) (i := i)
      as (a & y & Ha & Hy & Hpre); [| |done|done|done|].
    - apply Forall_seq. intros k Hk Hin. rewrite Forall_forall in Hold.
      specialize (Hold _ Hin). lia.
    - apply Forall_seq. intros k Hk. rewrite Hs', length_app, length_replicate in Hlen.
      lia.
    - exists y. rewrite Nat.sub_0_r in Hpre. split; [apply Hpre|].
      simpl in Ha. by rewrite list_lookup_fmap, Haux, Ha, <-Hy. }
  split; [done|].
  intros idxs j idx Hsel Hs Hr Hj. apply Hmain.
  rewrite Hsel, hits_increasing by done. by rewrite list_lookup_fmap, Hj.
Qed.

(** ** Two getters *)

(** The cells of the wrappers in the model of a getter: cells of the getter
    and cells of wrappers the model passed in had. *)
Lemma getter_model_cells (m : module) sel (s : store X) g s' aux :
  intermediate_layer_getter m sel s = inr (g, s') →
  aux ∈ cells (model g) → aux ∈ auxs g ∨ aux ∈ cells m.
Proof.
  intros Hg Hin.
  destruct (getter_cells_used _ _ _ _ _ Hg) as (_ & _ & _ & used & Hsub & Hperm & _).
  rewrite Hperm, elem_of_app in Hin. destruct Hin as [Hin|Hin]; [left|by right].
  by eapply elem_of_sublist.
Qed.

(** X8.  Two getters built one after the other, each from a model whose
    wrappers, if it has any, are over cells that existed before the first of
    the two was built (so the model of the second holds no wrapper of the
    first), do not interfere: each call of
    [_make_intermediate_layer_wrapper] has a cell of its own, so a call of
    one getter leaves the cells of the other as they were. *)
Theorem getters_do_not_interfere (m1 m2 : module) sel1 sel2 (s : store X)
    g1 s1 g2 s2 :
  intermediate_layer_getter m1 sel1 s = inr (g1, s1) →
  intermediate_layer_getter m2 sel2 s1 = inr (g2, s2) →
  Forall (λ aux, aux < length s) (cells m1) →
  Forall (λ aux, aux < length s) (cells m2) →
  ∀ x key (s0 : store X),
    (∀ aux, aux ∈ auxs g1 →
       AuxData_data (getter_call g2 x key s0).2 aux = AuxData_data s0 aux) ∧
    (∀ aux, aux ∈ auxs g2 →
       AuxData_data (getter_call g1 x key s0).2 aux = AuxData_data s0 aux).
Proof.
  intros Hg1 Hg2 Hold1 Hold2 x key s0.
  destruct (getter_cells _ _ _ _ _ Hg1) as (Haux1 & Hs1 & _).
  destruct (getter_cells _ _ _ _ _ Hg2) as (Haux2 & _ & _).
  assert (length s1 = length s + len (sel1 m1)) as Hlen1
    by by rewrite Hs1, length_app, length_replicate.
  rewrite Forall_forall in Hold1, Hold2.
  split; intros aux Hin; apply getter_call_keeps, no_update_outside_cells; intros Hc.
  - rewrite Haux1 in Hin. apply elem_of_seq in Hin.
    destruct (getter_model_cells _ _ _ _ _ _ Hg2 Hc) as [Hc'|Hc'].
    + rewrite Haux2 in Hc'. apply elem_of_seq in Hc'. lia.
    + specialize (Hold2 _ Hc'). lia.
  - rewrite Haux2 in Hin. apply elem_of_seq in Hin.
    destruct (getter_model_cells _ _ _ _ _ _ Hg1 Hc) as [Hc'|Hc'].
    + rewrite Haux1 in Hc'. apply elem_of_seq in Hc'. lia.
    + specialize (Hold1 _ Hc'). lia.
Qed.

End Properties.

(** * The claims at concrete models *)

Import Examples.

Lemma pipeline_02_built :
  ilg pipeline (λ _, Indices [0; 2]%Z) [] = inr (pipeline_02, [None; None]).
Proof. reflexivity. Defined.

Lemma pipeline_20_built :
  ilg pipeline (λ _, Indices [2; 0]%Z) [] = inr (pipeline_02, [None; None]).
Proof. reflexivity. Defined.

Lemma pipeline_00_built :
  ilg pipeline (λ _, Indices [0; 0]%Z) [] = inr (pipeline_00, [None; None]).
Proof. reflexivity. Defined.

Lemma pipeline_20_general_built :
  general_getter pipeline (λ _, Nodes [[2]; [0]]) [] =
    inr (pipeline_20_general, [None; None]).
Proof. reflexivity. Defined.

Lemma nested_shallow_first_built :
  ilg nested (λ _, Nodes [[0]; [1; 1]]) [] = inr (nested_shallow_first, [None; None]).
Proof. reflexivity. Defined.

Lemma nested_0_twice_built :
  ilg nested (λ _, Nodes [[0]; [0]]) [] = inr (nested_0_twice, [None; None]).
Proof. reflexivity. Defined.

Lemma guarded_1_built :
  ilg guarded (λ _, Indices [1]%Z) [] = inr (guarded_1, [None]).
Proof. reflexivity. Defined.

Lemma twice_0_built :
  ilg twice (λ _, Nodes [[0]]) [] = inr (twice_0, [None]).
Proof. reflexivity. Defined.

Lemma branching_0_built :
  ilg branching (λ _, Nodes [[0]]) [] = inr (branching_0, [None]).
Proof. reflexivity. Defined.

(** C1 at Scenario A: the output is 14 with and without the wrappers. *)
Lemma pass_through_witness :
  ilg pipeline (λ _, Indices [0; 2]%Z) [] = inr (pipeline_02, [None; None]) ∧
  final_output (ilg_call pipeline_02 1%Z (Some 5) [None; None]).1 = inr 14%Z ∧
  (fwd pipeline 1%Z (Some 5) []).1 = inr 14%Z.
Proof.
  split; [reflexivity|]. split; [|reflexivity].
  exact (eq_trans
    (pass_through keys NoSuchField pipeline (λ _, Indices [0; 2]%Z) []
       pipeline_02 [None; None] pipeline_02_built 1%Z (Some 5) [] [None; None])
    eq_refl).
Defined.

(** C7 at a pipeline whose second layer raises 7 on a negative value:
    called on -5, the first layer hands -4 on, the wrapped layer raises 7,
    and so does the getter. *)
Lemma errors_propagate_witness :
  ilg guarded (λ _, Indices [1]%Z) [] = inr (guarded_1, [None]) ∧
  reaches keys NoSuchField [L0; positive; L2] None 1 (-5)%Z = inr (-4)%Z ∧
  (fwd positive (-4)%Z None []).1 = inl 7 ∧
  (ilg_call guarded_1 (-5)%Z None [None]).1 = inl 7.
Proof.
  split; [reflexivity|]. split; [reflexivity|]. split; [reflexivity|].
  exact (proj2 (proj2 (proj2
    (errors_propagate keys NoSuchField guarded (λ _, Indices [1]%Z) []
       guarded_1 [None] guarded_1_built)))
    [L0; positive; L2] 1 positive (-5)%Z None (-4)%Z 7 [None] []
    eq_refl eq_refl eq_refl eq_refl).
Defined.

(** C4 at Scenario D: the wrapped layer runs on 1 and on 3, returns 2 and
    then 6, and the capture is 6. *)
Lemma last_write_wins_witness :
  ilg twice (λ _, Nodes [[0]]) [] = inr (twice_0, [None]) ∧
  updates keys NoSuchField (model twice_0) 1%Z None = [(0, 2%Z); (0, 6%Z)] ∧
  (ilg_call twice_0 1%Z None [None]).1 = inr (6%Z, [Some 6%Z]) ∧
  [Some 6%Z] !! 0 = Some (Some 6%Z).
Proof.
  split; [reflexivity|]. split; [reflexivity|]. split; [reflexivity|].
  exact (proj2
    (last_write_wins keys NoSuchField twice (λ _, Nodes [[0]]) []
       twice_0 [None] twice_0_built)
    1%Z None [None] 0 0 [(0, 2%Z)] 6%Z [] [Some 6%Z]
    (le_n 1) eq_refl eq_refl (not_elem_of_nil 0) eq_refl).
Defined.

(** C5 at Scenario A: each wrapped layer runs once, and the captures are
    what the first layer returned on 1 and the third on 4. *)
Lemma capture_content_witness :
  ilg pipeline (λ _, Indices [0; 2]%Z) [] = inr (pipeline_02, [None; None]) ∧
  updates keys NoSuchField (model pipeline_02) 1%Z None = [(0, 2%Z); (1, 14%Z)] ∧
  (ilg_call pipeline_02 1%Z None [None; None]).1 = inr (14%Z, [Some 2%Z; Some 14%Z]) ∧
  [Some 2%Z; Some 14%Z] !! 1 = Some (Some 14%Z).
Proof.
  split; [reflexivity|]. split; [reflexivity|]. split; [reflexivity|].
  exact (proj2 (proj2
    (capture_content keys NoSuchField pipeline (λ _, Indices [0; 2]%Z) []
       pipeline_02 [None; None] pipeline_02_built))
    1%Z None [None; None] 1 1 14%Z [Some 2%Z; Some 14%Z]
    (le_n 2) eq_refl eq_refl eq_refl).
Defined.

(** C9 at a model that skips its wrapped layer on negative inputs: after
    calls on -1 and -2, a call on -3 returns the capture [None]. *)
Lemma unwritten_is_None_witness :
  ilg branching (λ _, Nodes [[0]]) [] = inr (branching_0, [None]) ∧
  (ilg_call branching_0 (-3)%Z None
     (after_calls keys NoSuchField branching_0
        [((-1)%Z, None); ((-2)%Z, None)] [None])).1 = inr ((-3)%Z, [None]) ∧
  [@None Z] !! 0 = Some None.
Proof.
  split; [reflexivity|]. split; [reflexivity|].
  apply (proj2 (proj2 (proj2
    (unwritten_is_None keys NoSuchField branching (λ _, Nodes [[0]]) []
       branching_0 [None] branching_0_built)))
    [((-1)%Z, None); ((-2)%Z, None)] (-3)%Z None 0 0 [None]).
  - reflexivity.
  - repeat constructor; exact (not_elem_of_nil 0).
  - exact (not_elem_of_nil 0).
  - reflexivity.
Defined.

(** C3 at Scenario C: the selector returns the shallow layer, then the deep
    one; the forward pass runs the deep one first; the captures follow the
    selector.  And with the shallow layer returned twice: the wrapper at
    its location is over the second cell, the first capture stays [None]. *)
Lemma capture_order_witness :
  ilg nested (λ _, Nodes [[0]; [1; 1]]) [] = inr (nested_shallow_first, [None; None]) ∧
  updates keys NoSuchField (model nested_shallow_first) 1%Z None
    = [(1, 12%Z); (0, 13%Z)] ∧
  (ilg_call nested_shallow_first 1%Z None [None; None]).1
    = inr (13%Z, [Some 13%Z; Some 12%Z]) ∧
  ([1; 1] ∉ drop 2 [[0]; [1; 1]]) ∧
  Forall (λ q, q = [1; 1] ∨ overlap q [1; 1] = false) [[0]; [1; 1]] ∧
  (∃ aux t, auxs nested_shallow_first !! 1 = Some aux ∧
     subtree nested [1; 1] = Some t ∧
     subtree (model nested_shallow_first) [1; 1] = Some (IntermediateWrapper aux t)) ∧
  ilg nested (λ _, Nodes [[0]; [0]]) [] = inr (nested_0_twice, [None; None]) ∧
  (ilg_call nested_0_twice 1%Z None [None; None]).1 = inr (13%Z, [None; Some 13%Z]) ∧
  ([0] ∉ drop 2 [[0]; [0]]) ∧
  Forall (λ q, q = [0] ∨ overlap q [0] = false) [[0]; [0]] ∧
  (∃ aux t, auxs nested_0_twice !! 1 = Some aux ∧
     subtree nested [0] = Some t ∧
     subtree (model nested_0_twice) [0] = Some (IntermediateWrapper aux t)).
Proof.
  assert (Forall (λ q, q = [1; 1] ∨ overlap q [1; 1] = false) [[0]; [1; 1]]) as Hdeep.
  { apply Forall_cons. split; [right; reflexivity|].
    apply Forall_cons. split; [left; reflexivity|]. apply Forall_nil_2. }
  assert (Forall (λ q, q = [0] ∨ overlap q [0] = false) [[0]; [0]]) as Htwice.
  { apply Forall_cons. split; [left; reflexivity|].
    apply Forall_cons. split; [left; reflexivity|]. apply Forall_nil_2. }
  split; [reflexivity|]. split; [reflexivity|]. split; [reflexivity|].
  split; [exact (not_elem_of_nil _)|]. split; [exact Hdeep|]. split.
  { exact (proj1 (proj2
      (capture_order keys NoSuchField nested (λ _, Nodes [[0]; [1; 1]]) []
         nested_shallow_first [None; None] nested_shallow_first_built))
      [[0]; [1; 1]] 1 [1; 1] eq_refl eq_refl eq_refl (not_elem_of_nil _) Hdeep). }
  split; [reflexivity|]. split; [reflexivity|].
  split; [exact (not_elem_of_nil _)|]. split; [exact Htwice|].
  exact (proj1 (proj2
    (capture_order keys NoSuchField nested (λ _, Nodes [[0]; [0]]) []
       nested_0_twice [None; None] nested_0_twice_built))
    [[0]; [0]] 1 [0] eq_refl eq_refl eq_refl (not_elem_of_nil _) Htwice).
Defined.

(** C3 fails as stated: for Scenario A with the positions returned as 2, 0,
    the first target is position 2, whose layer returns 14 on this input; but
    the first cell belongs to the wrapper at position 0, and the first capture
    is 2, what the layer at position 0 returned. *)
Lemma capture_order_counterexample :
  ilg pipeline (λ _, Indices [2; 0]%Z) [] = inr (pipeline_02, [None; None]) ∧
  auxs pipeline_02 !! 0 = Some 0 ∧
  subtree (model pipeline_02) [0] = Some (IntermediateWrapper 0 L0) ∧
  subtree (model pipeline_02) [2] = Some (IntermediateWrapper 1 L2) ∧
  updates keys NoSuchField (model pipeline_02) 1%Z None = [(0, 2%Z); (1, 14%Z)] ∧
  (ilg_call pipeline_02 1%Z None [None; None]).1 = inr (14%Z, [Some 2%Z; Some 14%Z]) ∧
  ¬ (∃ aux l, auxs pipeline_02 !! 0 = Some aux ∧
       subtree (model pipeline_02) [2] = Some (IntermediateWrapper aux l)).
Proof.
  split_and!; try reflexivity.
  intros (aux & l & Ha & Hl). simpl in Ha, Hl. congruence.
Qed.

(** C6 at Scenario A with positions 0, 2. *)
Lemma flat_matches_general_witness :
  StronglySorted Z.lt [0; 2]%Z ∧
  Forall (λ z, 0 ≤ z < Z.of_nat (length [L0; L1; L2]))%Z [0; 2]%Z ∧
  ilg pipeline (λ _, Indices [0; 2]%Z) [] =
    general_getter pipeline (λ _, Nodes [[0]; [2]]) [] ∧
  ilg pipeline (λ _, Indices [0; 2]%Z) [] = inr (pipeline_02, [None; None]).
Proof.
  assert (StronglySorted Z.lt [0; 2]%Z) as Hs.
  { repeat (constructor; try lia). }
  assert (Forall (λ z, 0 ≤ z < Z.of_nat (length [L0; L1; L2]))%Z [0; 2]%Z) as Hr.
  { repeat (constructor; try (simpl; lia)). }
  split; [exact Hs|]. split; [exact Hr|]. split; [|reflexivity].
  exact (proj1 (flat_matches_general keys NoSuchField [L0; L1; L2] [0; 2]%Z [] Hs Hr)).
Defined.

(** C6 fails as stated: for Scenario A and the positions 2, 0, the branch for
    pipelines returns the captures 2, 14 and the general branch, on the
    locations of the same positions in the same order, 14, 2. *)
Lemma flat_matches_general_counterexample :
  ilg pipeline (λ _, Indices [2; 0]%Z) [] = inr (pipeline_02, [None; None]) ∧
  general_getter pipeline (λ _, Nodes [[2]; [0]]) []
    = inr (pipeline_20_general, [None; None]) ∧
  (ilg_call pipeline_02 1%Z None [None; None]).1
    = inr (14%Z, [Some 2%Z; Some 14%Z]) ∧
  (ilg_call pipeline_20_general 1%Z None [None; None]).1
    = inr (14%Z, [Some 14%Z; Some 2%Z]) ∧
  (ilg_call pipeline_02 1%Z None [None; None]).1
    ≠ (ilg_call pipeline_20_general 1%Z None [None; None]).1.
Proof. split_and!; try reflexivity. intros H. vm_compute in H. congruence. Qed.

(** C8 at Scenario A with positions 0, 2, where both pairs are used, and
    at Scenario C with the shallow layer returned twice, where the one
    wrapper is over the second cell and the first cell is in no wrapper. *)
Lemma fresh_pairs_witness :
  ilg pipeline (λ _, Indices [0; 2]%Z) [] = inr (pipeline_02, [None; None]) ∧
  cells (model pipeline_02) = [0; 1] ∧
  (∃ used,
     used `sublist_of` auxs pipeline_02 ∧
     cells (model pipeline_02) ≡ₚ used ++ cells pipeline ∧
     (∀ locs, is_Sequential pipeline = false → Indices [0; 2]%Z = Nodes locs →
        (∀ j loc aux, locs !! j = Some loc → auxs pipeline_02 !! j = Some aux →
           loc ∈ drop (S j) locs → aux ∉ used) ∧
        (separate locs = true → used = auxs pipeline_02)) ∧
     (∀ layers, pipeline = Sequential layers →
        used `prefix_of` auxs pipeline_02 ∧
        length used = length (hits (Indices [0; 2]%Z) 0 (length layers)) ∧
        ∀ idxs, Indices [0; 2]%Z = Indices idxs → NoDup idxs →
          Forall (λ z, 0 ≤ z < Z.of_nat (length layers))%Z idxs →
          used = auxs pipeline_02)) ∧
  ilg nested (λ _, Nodes [[0]; [0]]) [] = inr (nested_0_twice, [None; None]) ∧
  auxs nested_0_twice = [0; 1] ∧
  cells (model nested_0_twice) = [1] ∧
  (ilg_call nested_0_twice 1%Z None [None; None]).1 = inr (13%Z, [None; Some 13%Z]) ∧
  (∃ used,
     used `sublist_of` auxs nested_0_twice ∧
     cells (model nested_0_twice) ≡ₚ used ++ cells nested ∧
     (∀ locs, is_Sequential nested = false → Nodes [[0]; [0]] = Nodes locs →
        (∀ j loc aux, locs !! j = Some loc → auxs nested_0_twice !! j = Some aux →
           loc ∈ drop (S j) locs → aux ∉ used) ∧
        (separate locs = true → used = auxs nested_0_twice)) ∧
     (∀ layers, nested = Sequential layers →
        used `prefix_of` auxs nested_0_twice ∧
        length used = length (hits (Nodes [[0]; [0]]) 0 (length layers)) ∧
        ∀ idxs, Nodes [[0]; [0]] = Indices idxs → NoDup idxs →
          Forall (λ z, 0 ≤ z < Z.of_nat (length layers))%Z idxs →
          used = auxs nested_0_twice)).
Proof.
  split; [reflexivity|]. split; [reflexivity|]. split.
  { exact (proj1 (proj2 (fresh_pairs pipeline (λ _, Indices [0; 2]%Z) []
                           pipeline_02 [None; None] pipeline_02_built))). }
  split; [reflexivity|]. split; [reflexivity|]. split; [reflexivity|].
  split; [reflexivity|].
  exact (proj1 (proj2 (fresh_pairs nested (λ _, Nodes [[0]; [0]]) []
                         nested_0_twice [None; None] nested_0_twice_built))).
Defined.

(** C8 fails as stated: for Scenario A with position 0 returned twice, two
    pairs are made, but the new model has one wrapper, over the first cell;
    the second target has no wrapper of its own, the second cell belongs to
    no wrapper, and its capture stays [None]. *)
Lemma fresh_pairs_counterexample :
  ilg pipeline (λ _, Indices [0; 0]%Z) [] = inr (pipeline_00, [None; None]) ∧
  auxs pipeline_00 = [0; 1] ∧
  cells (model pipeline_00) = [0] ∧
  (ilg_call pipeline_00 1%Z None [None; None]).1 = inr (14%Z, [Some 2%Z; None]) ∧
  ¬ (∃ l, subtree (model pipeline_00) [0] = Some (IntermediateWrapper 1 l)).
Proof.
  split_and!; try reflexivity.
  intros (l & Hl). simpl in Hl. congruence.
Qed.

(** C10 at Scenario A with positions 0, 2. *)
Lemma model_left_as_is_witness :
  ilg pipeline (λ _, Indices [0; 2]%Z) [] = inr (pipeline_02, [None; None]) ∧
  unwrap (λ aux, bool_decide (length (@nil (option Z)) ≤ aux)) (model pipeline_02)
    = pipeline ∧
  subtree (model pipeline_02) [1] = Some L1.
Proof.
  split; [reflexivity|]. split.
  - exact (proj1 (proj2
      (model_left_as_is pipeline (λ _, Indices [0; 2]%Z) []
         pipeline_02 [None; None] pipeline_02_built)) (Forall_nil_2 _)).
  - reflexivity.
Defined.

(** * The further properties at concrete models *)

(** X1 at Scenario A with positions 0, 0, 7, -3. *)
Lemma pipeline_construction_succeeds_witness :
  [0; 0; 7; -3]%Z ≠ [] ∧
  ∃ g s',
    ilg pipeline (λ _, Indices [0; 0; 7; -3]%Z) [] = inr (g, s') ∧
    auxs g = seq (length (@nil (option Z))) (length [0; 0; 7; -3]%Z) ∧
    ∃ layers', model g = Sequential layers' ∧ length layers' = length [L0; L1; L2].
Proof.
  assert ([0; 0; 7; -3]%Z ≠ []) as Hne by discriminate.
  split; [exact Hne|].
  exact (pipeline_construction_succeeds [L0; L1; L2] [0; 0; 7; -3]%Z [] Hne).
Defined.

(** X2 at Scenario A with positions 5 and -1. *)
Lemma positions_out_of_range_ignored_witness :
  [5; -1]%Z ≠ [] ∧
  Forall (λ z, z < 0 ∨ Z.of_nat (length [L0; L1; L2]) ≤ z)%Z [5; -1]%Z ∧
  ilg pipeline (λ _, Indices [5; -1]%Z) [] = inr (Getter pipeline [0; 1], [None; None]).
Proof.
  assert ([5; -1]%Z ≠ []) as Hne by discriminate.
  assert (Forall (λ z, z < 0 ∨ Z.of_nat (length [L0; L1; L2]) ≤ z)%Z [5; -1]%Z) as Hout.
  { repeat constructor; simpl; lia. }
  split; [exact Hne|]. split; [exact Hout|].
  exact (positions_out_of_range_ignored [L0; L1; L2] [5; -1]%Z [] Hne Hout).
Defined.

(** X3 at Scenario A with position 0 returned twice: after a call on 1, a
    call on 3 returns the captures 4 and [None]. *)
Lemma surplus_captures_stay_None_witness :
  ilg pipeline (λ _, Indices [0; 0]%Z) [] = inr (pipeline_00, [None; None]) ∧
  (ilg_call pipeline_00 3%Z None
     (after_calls keys NoSuchField pipeline_00 [(1%Z, None)] [None; None])).1
    = inr (18%Z, [Some 4%Z; None]) ∧
  [Some 4%Z; None] !! 1 = Some None.
Proof.
  split; [reflexivity|]. split; [reflexivity|].
  apply (surplus_captures_stay_None keys NoSuchField [L0; L1; L2]
           (λ _, Indices [0; 0]%Z) [] pipeline_00 [None; None] pipeline_00_built
           (Forall_nil_2 _) [(1%Z, None)] 3%Z None 1 [Some 4%Z; None]).
  - simpl. lia.
  - simpl. lia.
  - reflexivity.
Defined.

(** X4 at a model that skips its wrapped layer on negative inputs: a call on
    1 captures 2; the next call, on -1, still returns the capture 2. *)
Lemma stale_capture_persists_witness :
  ilg branching (λ _, Nodes [[0]]) [] = inr (branching_0, [None]) ∧
  updates keys NoSuchField (model branching_0) 1%Z None = [(0, 2%Z)] ∧
  (ilg_call branching_0 (-1)%Z None (ilg_call branching_0 1%Z None [None]).2).1
    = inr ((-1)%Z, [Some 2%Z]) ∧
  [Some 2%Z] !! 0 = Some (Some 2%Z).
Proof.
  split; [reflexivity|]. split; [reflexivity|]. split; [reflexivity|].
  apply (stale_capture_persists keys NoSuchField branching (λ _, Nodes [[0]]) []
           branching_0 [None] branching_0_built
           1%Z None (-1)%Z None [None] 0 0 [] 2%Z [] [Some 2%Z]).
  - simpl. lia.
  - reflexivity.
  - reflexivity.
  - exact (not_elem_of_nil 0).
  - exact (not_elem_of_nil 0).
  - reflexivity.
Defined.

(** X5 at Scenario A: the same result from fresh cells and from cells that
    hold 7 and 9. *)
Lemma captures_fresh_when_all_run_witness :
  ilg pipeline (λ _, Indices [0; 2]%Z) [] = inr (pipeline_02, [None; None]) ∧
  updates keys NoSuchField (model pipeline_02) 1%Z None = [(0, 2%Z); (1, 14%Z)] ∧
  (ilg_call pipeline_02 1%Z None [None; None]).1
    = (ilg_call pipeline_02 1%Z None [Some 7%Z; Some 9%Z]).1.
Proof.
  split; [reflexivity|]. split; [reflexivity|].
  apply (captures_fresh_when_all_run keys NoSuchField pipeline
           (λ _, Indices [0; 2]%Z) [] pipeline_02 [None; None] pipeline_02_built
           1%Z None [None; None] [Some 7%Z; Some 9%Z]).
  - simpl. lia.
  - simpl. lia.
  - repeat constructor.
Defined.

(** X6 at the model of Scenario A's getter, instrumented again at position
    1: the updates of the cells 0 and 1 are as before. *)
Lemma earlier_wrappers_undisturbed_witness :
  ilg (model pipeline_02) (λ _, Indices [1]%Z) [None; None] =
    inr (Getter (Sequential [IntermediateWrapper 0 L0; IntermediateWrapper 2 L1;
                             IntermediateWrapper 1 L2]) [2],
         [None; None; None]) ∧
  updates keys NoSuchField
    (Sequential [IntermediateWrapper 0 L0; IntermediateWrapper 2 L1;
                 IntermediateWrapper 1 L2]) 1%Z None
    = [(0, 2%Z); (2, 4%Z); (1, 14%Z)] ∧
  filter (λ u, u.1 < length [@None Z; None])
    (updates keys NoSuchField
       (Sequential [IntermediateWrapper 0 L0; IntermediateWrapper 2 L1;
                    IntermediateWrapper 1 L2]) 1%Z None)
    = updates keys NoSuchField (model pipeline_02) 1%Z None.
Proof.
  split; [reflexivity|]. split; [reflexivity|].
  apply (earlier_wrappers_undisturbed keys NoSuchField (model pipeline_02)
           (λ _, Indices [1]%Z) [None; None]
           (Getter (Sequential [IntermediateWrapper 0 L0; IntermediateWrapper 2 L1;
                                IntermediateWrapper 1 L2]) [2])
           [None; None; None] eq_refl).
  repeat constructor.
Defined.

(** X7 at Scenario A on 1: the captures are 2, what leaves the first layer,
    and 14, what leaves the third. *)
Lemma pipeline_captures_are_activations_witness :
  ilg pipeline (λ _, Indices [0; 2]%Z) [] = inr (pipeline_02, [None; None]) ∧
  captures (ilg_call pipeline_02 1%Z None [None; None]).1
    = Some [Some 2%Z; Some 14%Z] ∧
  reaches keys NoSuchField [L0; L1; L2] None 1 1%Z = inr 2%Z ∧
  reaches keys NoSuchField [L0; L1; L2] None 3 1%Z = inr 14%Z ∧
  ∃ y, reaches keys NoSuchField [L0; L1; L2] None 3 1%Z = inr y ∧
       [Some 2%Z; Some 14%Z] !! 1 = Some (Some y).
Proof.
  split; [reflexivity|]. split; [reflexivity|].
  split; [reflexivity|]. split; [reflexivity|].
  apply (proj1 (pipeline_captures_are_activations keys NoSuchField [L0; L1; L2]
           (λ _, Indices [0; 2]%Z) [] pipeline_02 [None; None] pipeline_02_built
           (Forall_nil_2 _) 1%Z None [None; None] [Some 2%Z; Some 14%Z]
           (le_n 2) eq_refl) 1 2).
  reflexivity.
Defined.

(** X8 at Scenario A's getter and a getter built after it for the pipeline
    with the refusing layer: a call of the second leaves the cells 0 and 1
    of the first holding 2 and 14. *)
Lemma getters_do_not_interfere_witness :
  ilg pipeline (λ _, Indices [0; 2]%Z) [] = inr (pipeline_02, [None; None]) ∧
  ilg guarded (λ _, Indices [1]%Z) [None; None] =
    inr (Getter (Sequential [L0; IntermediateWrapper 2 positive; L2]) [2],
         [None; None; None]) ∧
  (ilg_call (Getter (Sequential [L0; IntermediateWrapper 2 positive; L2]) [2])
     5%Z None [Some 2%Z; Some 14%Z; None]).2 = [Some 2%Z; Some 14%Z; Some 6%Z] ∧
  AuxData_data
    (ilg_call (Getter (Sequential [L0; IntermediateWrapper 2 positive; L2]) [2])
       5%Z None [Some 2%Z; Some 14%Z; None]).2 1
    = AuxData_data [Some 2%Z; Some 14%Z; None] 1.
Proof.
  split; [reflexivity|]. split; [reflexivity|]. split; [reflexivity|].
  apply (proj1 (getters_do_not_interfere keys NoSuchField pipeline guarded
           (λ _, Indices [0; 2]%Z) (λ _, Indices [1]%Z) []
           pipeline_02 [None; None]
           (Getter (Sequential [L0; IntermediateWrapper 2 positive; L2]) [2])
           [None; None; None] pipeline_02_built eq_refl
           (Forall_nil_2 _) (Forall_nil_2 _) 5%Z None [Some 2%Z; Some 14%Z; None]) 1).
  repeat constructor.
Defined.
